(** * BQL result tables: a model of [bql/table/table.go]

    The table of a BQL query result: an ordered list of bindings, a
    membership map of the same names and a sequence of rows.  The
    operations are embedded as they are written in the Go source:
    the receiver [*Table] is threaded through every operation, the
    membership maps live in a store of map objects (two tables can
    share one), the accumulators live in a store of accumulator
    objects, and an operation ends by returning, by [log.Fatalf] or
    by a run-time panic. *)

From stdpp Require Import gmap strings list fin_maps sorting.
From Stdlib Require Import ZArith Ascii String DecimalString.

#[local] Set Warnings "-clear-no-such-hyp".
#[local] Open Scope string_scope.
#[local] Open Scope list_scope.

(** ** How a Go call ends *)

(** A call returns a value, ends the process through [log.Fatalf]
    ([os.Exit(1)] after logging), or panics at run time (nil
    dereference, failed type assertion, index out of range,
    [make] with a negative length). *)
Inductive outcome (A : Type) : Type :=
| Ret (a : A)
| Fatal
| Panic.
Arguments Ret {A} a.
Arguments Fatal {A}.
Arguments Panic {A}.

#[global] Instance outcome_ret : MRet outcome := @Ret.
#[global] Instance outcome_bind : MBind outcome := λ A B f m,
  match m with
  | Ret a => f a
  | Fatal => Fatal
  | Panic => Panic
  end.

(** The [error] values built in [table.go], by the place that builds
    them (the texts of the messages are not modelled), and the errors
    handed over by the [literal] package. *)
Inductive error : Type :=
| ErrNewDuplicatedBindings
| ErrProjectUnknownBinding (b : string)
| ErrAppendTableBindings
| ErrDotProductBindings
| ErrDeleteRow (i : Z)
| ErrEmptyRange
| ErrUnknownAccValue (b : string)
| ErrEmptyReducedRow
| ErrReduceCannotProject
| ErrReduceMissingAlias (b : string)
| ErrReduceUnknownBinding (b : string)
| ErrReduceInvalidConfig
| ErrLiteral (msg : string).

(** ** The packages [table.go] imports

    [node], [predicate], [literal] and [time] are not part of the
    file.  The table only uses the operations below; they are taken
    as parameters.  [float64] and its addition are left abstract as
    well. *)
Class External : Type := {
  Node : Type;
  node_String : Node → string;
  Predicate : Type;
  predicate_String : Predicate → string;
  Literal : Type;
  literal_String : Literal → string;
  literal_ToComparableString : Literal → string;
  float64 : Type;
  float64_add : float64 → float64 → float64;
  literal_Int64 : Literal → Z + error;
  literal_Float64 : Literal → float64 + error;
  literal_Build_Int64 : Z → Literal + error;
  literal_Build_Float64 : float64 → Literal + error;
  TimeAnchor : Type;
  time_Format_RFC3339Nano : TimeAnchor → string
}.

(** ** Cells and rows *)

(** [type Cell struct { S *string; N *node.Node; P *predicate.Predicate;
    L *literal.Literal; T *time.Time }]: a nil pointer is [None].
    (The field [S] is written [Cell_S], and so on, since [S] is the
    successor of [nat].) *)
Record Cell `{External} : Type := mkCell {
  Cell_S : option string;
  Cell_N : option Node;
  Cell_P : option Predicate;
  Cell_L : option Literal;
  Cell_T : option TimeAnchor
}.

(** [type Row map[string]*Cell]: a key can hold the nil pointer. *)
Abbreviation Row := (gmap string (option Cell)).

(** One entry of [type SortConfig []struct { Binding string; Desc bool }]. *)
Record SortEntry : Type := mkSortEntry {
  Binding : string;
  Desc : bool
}.

(** A [SortConfig] is a slice: [None] is the nil slice, which [Sort]
    and [rowLess] tell apart from an empty one. *)
Abbreviation SortConfig := (option (list SortEntry)).

(** ** Strings *)

(** [unicode.IsSpace] on the UTF-8 bytes at the head of a string: the
    number of bytes of the white space rune that starts there, if one
    does.  The runes are U+0009..U+000D, U+0020, U+0085, U+00A0,
    U+1680, U+2000..U+200A, U+2028, U+2029, U+202F, U+205F, U+3000. *)
Definition space_rune (bs : list N) : option nat :=
  match bs with
  | (9 | 10 | 11 | 12 | 13 | 32)%N :: _ => Some 1
  | 194%N :: (133 | 160)%N :: _ => Some 2
  | 225%N :: 154%N :: 128%N :: _ => Some 3
  | 226%N :: 128%N :: c :: _ =>
      if ((128 <=? c) && (c <=? 138) || (c =? 168) || (c =? 169) || (c =? 175))%N
      then Some 3 else None
  | 226%N :: 129%N :: 159%N :: _ => Some 3
  | 227%N :: 128%N :: 128%N :: _ => Some 3
  | _ => None
  end.

(** The same for the rune that ends a string, read on the reversed bytes. *)
Definition space_rune_rev (bs : list N) : option nat :=
  match bs with
  | (9 | 10 | 11 | 12 | 13 | 32)%N :: _ => Some 1
  | (133 | 160)%N :: 194%N :: _ => Some 2
  | 128%N :: 154%N :: 225%N :: _ => Some 3
  | c :: 128%N :: 226%N :: _ =>
      if ((128 <=? c) && (c <=? 138) || (c =? 168) || (c =? 169) || (c =? 175))%N
      then Some 3 else None
  | 159%N :: 129%N :: 226%N :: _ => Some 3
  | 128%N :: 128%N :: 227%N :: _ => Some 3
  | _ => None
  end.

(** Drops runes from the head while [rune] recognises one. *)
Fixpoint trim_head (rune : list N → option nat) (fuel : nat) (bs : list N) : list N :=
  match fuel with
  | O => bs
  | S fuel' =>
      match rune bs with
      | Some n => trim_head rune fuel' (drop n bs)
      | None => bs
      end
  end.

Definition bytes_of (s : string) : list N := N_of_ascii <$> list_ascii_of_string s.
Definition string_of_bytes (bs : list N) : string :=
  string_of_list_ascii (ascii_of_N <$> bs).

(** [strings.TrimSpace]: the string without its leading and trailing
    white space. *)
Definition TrimSpace (s : string) : string :=
  let front := trim_head space_rune (String.length s) (bytes_of s) in
  let back := trim_head space_rune_rev (String.length s) (reverse front) in
  string_of_bytes (reverse back).

(** Go compares strings byte by byte: [si < sj] is [String.ltb]. *)

(** [stringLess]: -1, 0 or 1. *)
Definition stringLess (rsi rsj : string) (desc : bool) : Z :=
  let si := TrimSpace rsi in
  let sj := TrimSpace rsj in
  if (String.eqb si "" && String.eqb sj "") || String.eqb si sj then 0%Z
  else
    let b := if String.ltb si sj then (-1)%Z else 1%Z in
    if desc then (b * -1)%Z else b.

Section Model.
Context `{E : External}.

(** [func (c *Cell) String() string], on a cell that is there. *)
Definition Cell_String (c : Cell) : string :=
  match Cell_S c with
  | Some s => s
  | None =>
      match Cell_N c with
      | Some n => node_String n
      | None =>
          match Cell_P c with
          | Some p => predicate_String p
          | None =>
              match Cell_L c with
              | Some l => literal_String l
              | None =>
                  match Cell_T c with
                  | Some t => time_Format_RFC3339Nano t
                  | None => "<NULL>"
                  end
              end
          end
      end
  end.

(** The method called through a [*Cell]: reading [c.S] on the nil
    pointer panics. *)
Definition CellPtr_String (c : option Cell) : outcome string :=
  match c with
  | Some c => Ret (Cell_String c)
  | None => Panic
  end.

(** ** The ordering of rows *)

(** One of the five tests of [rowLess],
    [if ci.X != nil && cj.X != nil { si, sj = render(ci.X), render(cj.X) }]:
    [xi] is [ci.X] (the cell [ci] is there), [cj] is the pointer of the
    other row.  [cj.X] is only read when [ci.X] is set. *)
Definition both_set {A : Type} (xi : option A) (cj : option Cell)
    (X : Cell → option A) (render : A → string)
    (cur : string * string) : outcome (string * string) :=
  match xi with
  | None => Ret cur
  | Some x =>
      match cj with
      | None => Panic
      | Some c =>
          match X c with
          | Some y => Ret (render x, render y)
          | None => Ret cur
          end
      end
  end.

(** [rowLess] on a configuration that is not the nil slice. *)
Fixpoint rowLess_entries (ri rj : Row) (c : list SortEntry) : outcome bool :=
  match c with
  | [] => Panic (* c[0]: index out of range *)
  | cfg :: rest =>
      let last := bool_decide (rest = []) in
      match ri !! Binding cfg with
      | None => Fatal
      | Some ci =>
          match rj !! Binding cfg with
          | None => Fatal
          | Some cj =>
              match ci with
              | None => Panic (* ci.S on the nil pointer *)
              | Some ci =>
                  s ← both_set (Cell_S ci) cj Cell_S id ("", "");
                  s ← both_set (Cell_N ci) cj Cell_N node_String s;
                  s ← both_set (Cell_P ci) cj Cell_P predicate_String s;
                  s ← both_set (Cell_L ci) cj Cell_L literal_ToComparableString s;
                  s ← both_set (Cell_T ci) cj Cell_T time_Format_RFC3339Nano s;
                  let l := stringLess s.1 s.2 (Desc cfg) in
                  if (l <? 0)%Z then Ret true
                  else if (0 <? l)%Z || last then Ret false
                  else rowLess_entries ri rj rest
              end
          end
      end
  end.

(** [func rowLess(ri, rj Row, c SortConfig) bool]. *)
Definition rowLess (ri rj : Row) (c : SortConfig) : outcome bool :=
  match c with
  | None => Ret false
  | Some c => rowLess_entries ri rj c
  end.

(** [bySortConfig.Less(i, j)]: [c.rows[i]] and [c.rows[j]] panic out of
    range. *)
Definition Less (cfg : SortConfig) (rows : list Row) (i j : nat) : outcome bool :=
  match rows !! i, rows !! j with
  | Some ri, Some rj => rowLess ri rj cfg
  | _, _ => Panic
  end.

(** [bySortConfig.Swap(i, j)]. *)
Definition Swap (rows : list Row) (i j : nat) : list Row :=
  match rows !! i, rows !! j with
  | Some ri, Some rj => <[i := rj]> (<[j := ri]> rows)
  | _, _ => rows
  end.

(** The inner loop of [insertionSort] in Go's package [sort],
    [for j := i; j > a && data.Less(j, j-1); j-- { data.Swap(j, j-1) }]
    with [a = 0]. *)
Fixpoint insertion_inner (cfg : SortConfig) (j : nat) (rows : list Row) : outcome (list Row) :=
  match j with
  | O => Ret rows
  | S j' =>
      b ← Less cfg rows j j';
      if b : bool then insertion_inner cfg j' (Swap rows j j') else Ret rows
  end.

(** Its outer loop, [for i := a + 1; i < b; i++], with [k] rounds left. *)
Fixpoint insertion_outer (cfg : SortConfig) (k i : nat) (rows : list Row) : outcome (list Row) :=
  match k with
  | O => Ret rows
  | S k' =>
      rows' ← insertion_inner cfg i rows;
      insertion_outer cfg k' (S i) rows'
  end.

(** [sort.Sort(bySortConfig{rows, cfg})].  Package [sort] is Go's own:
    on a slice of at most 6 elements every release of it runs
    [insertionSort(data, 0, n)] and nothing else, and that is what is
    modelled here (longer slices are first cut down by a quicksort
    whose comparisons differ from one release to the next). *)
Definition sort_Sort (cfg : SortConfig) (rows : list Row) : outcome (list Row) :=
  insertion_outer cfg (List.length rows - 1) 1 rows.

(** ** Tables *)

(** The order in which a [for k, v := range m] visits a map.  Go leaves
    it unspecified: any enumeration of the entries is a possible one.
    The operations whose result can depend on it take the order as an
    argument (one order for each map: a map that is ranged over twice
    is visited the same way both times). *)
Record RangeOrder : Type := mkRangeOrder {
  range_of : ∀ A : Type, gmap string A → list (string * A);
  range_of_perm : ∀ (A : Type) (m : gmap string A), range_of A m ≡ₚ map_to_list m
}.

(** The store of the [map[string]bool] objects made by [make]; a map
    value is a reference into it.  A reference outside the store reads
    as the nil map. *)
Definition map_at (h : list (gmap string bool)) (l : nat) : gmap string bool :=
  default ∅ (h !! l).

(** [m[b]] on a [map[string]bool]: [false] when the key is absent. *)
Definition has (m : gmap string bool) (b : string) : bool :=
  default false (m !! b).

(** [type Table struct { bs []string; mbs map[string]bool; data []Row }]. *)
Record Table : Type := mkTable {
  bs : list string;
  mbs : nat;
  data : list Row
}.

Definition with_data (t : Table) (d : list Row) : Table :=
  {| bs := bs t; mbs := mbs t; data := d |}.

(** [func New(bs []string)], which returns a [*Table] and an [error]. *)
Definition New (names : list string) (h : list (gmap string bool))
    : Table * list (gmap string bool) + error :=
  let m := foldl (λ m b, <[b := true]> m) (∅ : gmap string bool) names in
  if bool_decide (size m ≠ List.length names) then inr ErrNewDuplicatedBindings
  else inl ({| bs := names; mbs := List.length h; data := [] |}, h ++ [m]).

(** [func (t *Table) AddRow(r Row)]. *)
Definition AddRow (r : Row) (t : Table) : Table :=
  if bool_decide (0 < size r) then with_data t (data t ++ [r]) else t.

(** [func (t *Table) NumRows() int]. *)
Definition NumRows (t : Table) : nat := List.length (data t).

(** [func (t *Table) AddBindings(bs []string)]: the map of the receiver
    is updated in place. *)
Definition AddBindings (names : list string) (t : Table) (h : list (gmap string bool))
    : Table * list (gmap string bool) :=
  foldl (λ '(t, h) b,
           if has (map_at h (mbs t)) b then (t, h)
           else ({| bs := bs t ++ [b]; mbs := mbs t; data := data t |},
                 <[mbs t := <[b := true]> (map_at h (mbs t))]> h))
        (t, h) names.

(** [func (t *Table) ProjectBindings(bs []string) error]. *)
Definition ProjectBindings (names : list string) (t : Table) (h : list (gmap string bool))
    : option error * (Table * list (gmap string bool)) :=
  if bool_decide (List.length (data t) = 0) || bool_decide (size (map_at h (mbs t)) = 0)
  then (None, (t, h))
  else
    match List.find (λ b, negb (has (map_at h (mbs t)) b)) names with
    | Some b => (Some (ErrProjectUnknownBinding b), (t, h))
    | None =>
        (None, AddBindings names {| bs := []; mbs := List.length h; data := data t |} (h ++ [∅]))
    end.

(** [func (t *Table) HasBinding(b string) bool]. *)
Definition HasBinding (b : string) (t : Table) (h : list (gmap string bool)) : bool :=
  has (map_at h (mbs t)) b.

(** [func (t *Table) Bindings() []string]. *)
Definition Bindings (t : Table) : list string := bs t.

(** [func equalBindings(b1, b2 map[string]bool) bool]. *)
Definition equalBindings (b1 b2 : gmap string bool) : bool :=
  if bool_decide (size b1 ≠ size b2) then false
  else forallb (λ kv, has b2 kv.1) (map_to_list b1).

(** [func (t *Table) AppendTable(t2 *Table) error]: a receiver without
    bindings takes over the binding list and the map of [t2], the map
    by reference. *)
Definition AppendTable (t2 : option Table) (t : Table) (h : list (gmap string bool))
    : option error * Table :=
  match t2 with
  | None => (None, t)
  | Some t2 =>
      if bool_decide (0 < List.length (Bindings t))
         && negb (equalBindings (map_at h (mbs t)) (map_at h (mbs t2)))
      then (Some ErrAppendTableBindings, t)
      else
        let t' := if bool_decide (List.length (Bindings t) = 0)
                  then {| bs := bs t2; mbs := mbs t2; data := data t |} else t in
        (None, with_data t' (data t' ++ data t2))
  end.

(** [func disjointBinding(b1, b2 map[string]bool) bool]. *)
Definition disjointBinding (b1 b2 : gmap string bool) : bool :=
  forallb (λ kv, negb (has b2 kv.1)) (map_to_list b1).

(** [func MergeRows(ms []Row) Row]: the entries of each row are written
    over what the earlier rows gave. *)
Definition MergeRows (ms : list Row) : Row :=
  foldl (λ res om, om ∪ res) ∅ ms.

(** [func (t *Table) DotProduct(t2 *Table) error].  The new binding
    list is what [for k := range t.mbs] yields, in the order [ord]. *)
Definition DotProduct (ord : RangeOrder) (t2 : Table) (t : Table) (h : list (gmap string bool))
    : option error * (Table * list (gmap string bool)) :=
  if negb (disjointBinding (map_at h (mbs t)) (map_at h (mbs t2)))
  then (Some ErrDotProductBindings, (t, h))
  else
    let m := foldl (λ m kv, <[kv.1 := true]> m) (∅ : gmap string bool)
               (map_to_list (map_at h (mbs t)) ++ map_to_list (map_at h (mbs t2))) in
    (None,
     ({| bs := (range_of ord bool m).*1;
         mbs := List.length h;
         data := r1 ← data t; r2 ← data t2; [MergeRows [r1; r2]] |},
      h ++ [m])).

(** [func (t *Table) DeleteRow(i int) error]. *)
Definition DeleteRow (i : Z) (t : Table) : option error * Table :=
  if bool_decide (i < 0)%Z || bool_decide (Z.of_nat (List.length (data t)) ≤ i)%Z
  then (Some (ErrDeleteRow i), t)
  else (None, with_data t (take (Z.to_nat i) (data t) ++ drop (Z.to_nat i + 1) (data t))).

(** [func (t *Table) Truncate()]. *)
Definition Truncate (t : Table) : Table := with_data t [].

(** [func (t *Table) Limit(i int64)]: [make([]Row, i, i)] panics on a
    negative length. *)
Definition Limit (i : Z) (t : Table) : outcome Table :=
  if bool_decide (i < Z.of_nat (List.length (data t)))%Z then
    if bool_decide (i < 0)%Z then Panic
    else Ret (with_data t (take (Z.to_nat i) (data t)))
  else Ret t.

(** [func (t *Table) Filter(f func(Row) bool)]. *)
Definition Filter (f : Row → bool) (t : Table) : Table :=
  with_data t (List.filter (λ r, negb (f r)) (data t)).

(** [func (t *Table) Sort(cfg SortConfig)]. *)
Definition Sort (cfg : SortConfig) (t : Table) : outcome Table :=
  match cfg with
  | None => Ret t
  | Some _ => rows ← sort_Sort cfg (data t); Ret (with_data t rows)
  end.

(** ** Accumulators *)

(** [int64] arithmetic wraps around. *)
Definition wrap64 (z : Z) : Z :=
  ((z + 2 ^ 63) mod 2 ^ 64 - 2 ^ 63)%Z.

(** The [interface{}] values handed to [Accumulate], by dynamic type:
    a [*Cell] (what the table passes: [r[b]], nil when the row has no
    such key), a [*literal.Literal], a [string]. *)
Inductive value : Type :=
| V_Cell (c : option Cell)
| V_Literal (l : Literal)
| V_string (s : string).

(** The [interface{}] values an accumulator returns, by dynamic type:
    an [int64], a [float64] (the accumulators of the file return
    these), or a value of any other type. *)
Inductive accval : Type :=
| A_int64 (z : Z)
| A_float64 (f : float64)
| A_other.

(** [fmt.Sprintf("%v", v)]: a [*Cell] and a [*literal.Literal] are
    printed by their [String] method, the nil [*Cell] as [<nil>]. *)
Definition fmt_v (v : value) : string :=
  match v with
  | V_Cell (Some c) => Cell_String c
  | V_Cell None => "<nil>"
  | V_Literal l => literal_String l
  | V_string s => s
  end.

(** The accumulator objects: those of the file, with their fields,
    and, [Accumulator] being an interface, the ones a caller writes,
    taken here to answer by a function [answer] of the values fed
    since the last [Reset]. *)
Inductive AccState : Type :=
| sumInt64 (initialState state : Z)
| sumFloat64 (initialState state : float64)
| countAcc (state : Z)
| countDistinctAcc (state : gmap string Z)
| callerAcc (fed : list value) (answer : list value → accval * option error).

(** The [Accumulate] methods.  The two sums start with the type
    assertion of [v] to a pointer to [literal.Literal], which panics on any other
    dynamic type. *)
Definition Accumulate (a : AccState) (v : value) : outcome (accval * option error * AccState) :=
  match a with
  | sumInt64 init st =>
      match v with
      | V_Literal l =>
          match literal_Int64 l with
          | inl iv => Ret (A_int64 (wrap64 (st + iv)), None, sumInt64 init (wrap64 (st + iv)))
          | inr err => Ret (A_int64 st, Some err, a)
          end
      | _ => Panic
      end
  | sumFloat64 init st =>
      match v with
      | V_Literal l =>
          match literal_Float64 l with
          | inl iv => Ret (A_float64 (float64_add st iv), None, sumFloat64 init (float64_add st iv))
          | inr err => Ret (A_float64 st, Some err, a)
          end
      | _ => Panic
      end
  | countAcc st =>
      Ret (A_int64 (wrap64 (st + 1)), None, countAcc (wrap64 (st + 1)))
  | countDistinctAcc st =>
      let vs := fmt_v v in
      let st' := <[vs := wrap64 (default 0%Z (st !! vs) + 1)]> st in
      Ret (A_int64 (Z.of_nat (size st')), None, countDistinctAcc st')
  | callerAcc fed answer =>
      Ret (answer (fed ++ [v]), callerAcc (fed ++ [v]) answer)
  end.

(** The [Reset] methods. *)
Definition Reset (a : AccState) : AccState :=
  match a with
  | sumInt64 init _ => sumInt64 init init
  | sumFloat64 init _ => sumFloat64 init init
  | countAcc _ => countAcc 0
  | countDistinctAcc _ => countDistinctAcc ∅
  | callerAcc _ answer => callerAcc [] answer
  end.

Definition NewSumInt64LiteralAccumulator (s : Z) : AccState := sumInt64 s s.
Definition NewSumFloat64LiteralAccumulator (s : float64) : AccState := sumFloat64 s s.
Definition NewCountAccumulator : AccState := countAcc 0.
Definition NewCountDistinctAccumulator : AccState := countDistinctAcc ∅.

(** The results of feeding the values [vs] to an accumulator one after
    the other, up to the first call that does not return. *)
Fixpoint feed (a : AccState) (vs : list value) : list (outcome (accval * option error)) :=
  match vs with
  | [] => []
  | v :: vs' =>
      match Accumulate a v with
      | Ret (r, err, a') => Ret (r, err) :: feed a' vs'
      | Fatal => [Fatal]
      | Panic => [Panic]
      end
  end.

(** ** Reduction *)

(** [type AliasAccPair struct { InAlias, OutAlias string; Acc Accumulator }]:
    the accumulator is nil or a pointer to an object of the store of
    accumulators. *)
Record AliasAccPair : Type := mkAliasAccPair {
  InAlias : string;
  OutAlias : string;
  Acc : option nat
}.

(** [func toMap(aaps []AliasAccPair) map[string]map[string]AliasAccPair]. *)
Definition toMap (aaps : list AliasAccPair) : gmap string (gmap string AliasAccPair) :=
  foldl (λ resMap aap,
           <[InAlias aap := <[OutAlias aap := aap]> (default ∅ (resMap !! InAlias aap))]> resMap)
        ∅ aaps.

(** The pairs of [acc] as the nested loops
    [for _, aap := range acc { for _, a := range aap { ... } }] meet them. *)
Definition pairs_in_range (ord : RangeOrder) (acc : gmap string (gmap string AliasAccPair))
    : list AliasAccPair :=
  kv ← range_of ord _ acc; (range_of ord _ kv.2).*2.

(** The first loop of [fullGroupRangeReduce]: [a.Acc.Reset()] on every
    pair that has an accumulator. *)
Fixpoint reset_all (ps : list AliasAccPair) (σ : list AccState) : outcome (list AccState) :=
  match ps with
  | [] => Ret σ
  | a :: ps' =>
      match Acc a with
      | None => reset_all ps' σ
      | Some l =>
          match σ !! l with
          | Some st => reset_all ps' (<[l := Reset st]> σ)
          | None => Panic
          end
      end
  end.

(** The body of the second loop for one row [r]: every accumulator is
    fed [r[a.InAlias]]; the first error ends the reduction. *)
Fixpoint accumulate_row (r : Row) (ps : list AliasAccPair)
    (vaccs : gmap string (gmap string accval)) (σ : list AccState)
    : outcome (option error * gmap string (gmap string accval) * list AccState) :=
  match ps with
  | [] => Ret (None, vaccs, σ)
  | a :: ps' =>
      match Acc a with
      | None => accumulate_row r ps' vaccs σ
      | Some l =>
          match σ !! l with
          | None => Panic
          | Some st =>
              '(av, err, st') ← Accumulate st (V_Cell (default None (r !! InAlias a)));
              let σ' := <[l := st']> σ in
              match err with
              | Some e => Ret (Some e, vaccs, σ')
              | None =>
                  accumulate_row r ps'
                    (<[InAlias a := <[OutAlias a := av]> (default ∅ (vaccs !! InAlias a))]> vaccs)
                    σ'
              end
          end
      end
  end.

(** The second loop, over the rows of the range. *)
Fixpoint accumulate_range (rng : list Row) (ps : list AliasAccPair)
    (vaccs : gmap string (gmap string accval)) (σ : list AccState)
    : outcome (option error * gmap string (gmap string accval) * list AccState) :=
  match rng with
  | [] => Ret (None, vaccs, σ)
  | r :: rng' =>
      '(err, vaccs', σ') ← accumulate_row r ps vaccs σ;
      match err with
      | Some e => Ret (Some e, vaccs', σ')
      | None => accumulate_range rng' ps vaccs' σ'
      end
  end.

(** [&Cell{L: l}]. *)
Definition literal_cell (l : Literal) : Cell :=
  {| Cell_S := None; Cell_N := None; Cell_P := None; Cell_L := Some l; Cell_T := None |}.

(** The body of the inner loop that builds the new row, for the pair
    [app] met under the key [b] whose cell is [v]. *)
Definition new_row_entry (vaccs : gmap string (gmap string accval))
    (b : string) (v : option Cell) (app : AliasAccPair) (newRow : Row) : Row + error :=
  match Acc app with
  | None => inl (<[OutAlias app := v]> newRow)
  | Some _ =>
      match default ∅ (vaccs !! InAlias app) !! OutAlias app with
      | Some (A_int64 z) =>
          match literal_Build_Int64 z with
          | inl l => inl (<[OutAlias app := Some (literal_cell l)]> newRow)
          | inr err => inr err
          end
      | Some (A_float64 f) =>
          match literal_Build_Float64 f with
          | inl l => inl (<[OutAlias app := Some (literal_cell l)]> newRow)
          | inr err => inr err
          end
      | Some A_other | None => inr (ErrUnknownAccValue b)
      end
  end.

(** The third pair of loops,
    [for b, v := range rng[0] { for _, app := range acc[b] { ... } }],
    flattened into the list [todo] of the pairs it meets. *)
Fixpoint new_row (vaccs : gmap string (gmap string accval))
    (todo : list (string * option Cell * AliasAccPair)) (newRow : Row) : Row + error :=
  match todo with
  | [] => inl newRow
  | (b, v, app) :: todo' =>
      match new_row_entry vaccs b v app newRow with
      | inl newRow' => new_row vaccs todo' newRow'
      | inr err => inr err
      end
  end.

(** [func (t *Table) fullGroupRangeReduce(i, j int, acc ...) (Row, error)],
    on the rows [rows] of the table. *)
Definition fullGroupRangeReduce (ord : RangeOrder) (rows : list Row) (i j : nat)
    (acc : gmap string (gmap string AliasAccPair)) (σ : list AccState)
    : outcome ((Row + error) * list AccState) :=
  if bool_decide (j < i) then Ret (inr ErrEmptyRange, σ)
  else if bool_decide (List.length rows < j) then Panic (* t.data[i:j] *)
  else
    let rng := take (j - i) (drop i rows) in
    σ ← reset_all (pairs_in_range ord acc) σ;
    '(err, vaccs, σ) ← accumulate_range rng (pairs_in_range ord acc) ∅ σ;
    match err with
    | Some e => Ret (inr e, σ)
    | None =>
        match rng with
        | [] => Panic (* rng[0] *)
        | r0 :: _ =>
            let todo :=
              bv ← range_of ord _ r0;
              (λ app, (bv.1, bv.2, app)) <$> (range_of ord _ (default ∅ (acc !! bv.1))).*2 in
            match new_row vaccs todo ∅ with
            | inr e => Ret (inr e, σ)
            | inl newRow =>
                if bool_decide (size newRow = 0) then Ret (inr ErrEmptyReducedRow, σ)
                else Ret (inl newRow, σ)
            end
        end
    end.

(** The input validation tests of [Reduce]. *)
Definition Reduce_validate (ord : RangeOrder) (t : Table) (h : list (gmap string bool))
    (maaps : gmap string (gmap string AliasAccPair)) : option error :=
  if bool_decide (List.length (bs t) ≠ size maaps) then Some ErrReduceCannotProject
  else
    match List.find (λ b, bool_decide (maaps !! b = None)) (bs t) with
    | Some b => Some (ErrReduceMissingAlias b)
    | None =>
        match List.find (λ b, bool_decide (map_at h (mbs t) !! b = None))
                (range_of ord _ maaps).*1 with
        | Some b => Some (ErrReduceUnknownBinding b)
        | None =>
            if bool_decide (List.length (range_of ord _ maaps) ≠ List.length (bs t))
            then Some ErrReduceInvalidConfig
            else None
        end
    end.

(** The closure [id] of [Reduce]: the concatenation of the renderings
    of the cells named by the sort configuration. *)
Fixpoint id_of (cfg : list SortEntry) (r : Row) (res : string) : outcome string :=
  match cfg with
  | [] => Ret res
  | c :: cfg' =>
      s ← CellPtr_String (default None (r !! Binding c));
      id_of cfg' r (res ++ s)%string
  end.

(** The loop [for idx, r := range t.data] of [Reduce] on the rows still
    to visit; [rows] is the whole of [t.data]. *)
Fixpoint reduce_loop (ord : RangeOrder) (cfg : list SortEntry)
    (maaps : gmap string (gmap string AliasAccPair)) (rows : list Row)
    (todo : list Row) (idx : nat) (last : string) (lastIdx : nat)
    (newData : list Row) (σ : list AccState)
    : outcome (error * list AccState + nat * list Row * list AccState) :=
  match todo with
  | [] => Ret (inr (lastIdx, newData, σ))
  | r :: todo' =>
      current ← id_of cfg r "";
      if String.eqb last "" then
        reduce_loop ord cfg maaps rows todo' (S idx) current idx newData σ
      else if String.eqb last current then
        reduce_loop ord cfg maaps rows todo' (S idx) last lastIdx newData σ
      else
        '(nr, σ') ← fullGroupRangeReduce ord rows lastIdx idx maaps σ;
        match nr with
        | inr err => Ret (inl (err, σ'))
        | inl nr =>
            reduce_loop ord cfg maaps rows todo' (S idx) current idx (newData ++ [nr]) σ'
        end
  end.

(** The update of the bindings that ends [Reduce], on a fresh map. *)
Definition reduce_bindings (aaps : list AliasAccPair) : list string * gmap string bool :=
  foldl (λ '(names, m) aap,
           (if has m (OutAlias aap) then names else names ++ [OutAlias aap],
            <[OutAlias aap := true]> m))
        ([], ∅) aaps.

(** [func (t *Table) Reduce(cfg SortConfig, aaps []AliasAccPair) error]. *)
Definition Reduce (ord : RangeOrder) (cfg : SortConfig) (aaps : list AliasAccPair)
    (t : Table) (h : list (gmap string bool)) (σ : list AccState)
    : outcome (option error * Table * list (gmap string bool) * list AccState) :=
  let maaps := toMap aaps in
  match Reduce_validate ord t h maaps with
  | Some err => Ret (Some err, t, h, σ)
  | None =>
      if bool_decide (NumRows t = 0) then Ret (None, t, h, σ)
      else
        t ← Sort cfg t;
        res ← reduce_loop ord (default [] cfg) maaps (data t) (data t) 0 "" 0 [] σ;
        match res with
        | inl (err, σ) => Ret (Some err, t, h, σ)
        | inr (lastIdx, newData, σ) =>
            '(nr, σ) ← fullGroupRangeReduce ord (data t) lastIdx (List.length (data t)) maaps σ;
            match nr with
            | inr err => Ret (Some err, t, h, σ)
            | inl nr =>
                let '(names, m) := reduce_bindings aaps in
                Ret (None,
                     {| bs := names; mbs := List.length h; data := newData ++ [nr] |},
                     h ++ [m], σ)
            end
        end
  end.

End Model.

(** ** The accessors and the text form *)

Section Access.
Context `{E : External}.

(** [func (t *Table) Row(i int) (Row, bool)]: [None] is the answer
    [nil, false]. *)
Definition Table_Row (i : Z) (t : Table) : option Row :=
  if bool_decide (i < 0)%Z || bool_decide (Z.of_nat (List.length (data t)) ≤ i)%Z
  then None
  else data t !! Z.to_nat i.

(** [func (t *Table) Rows() []Row]. *)
Definition Rows (t : Table) : list Row := data t.

(** [bySortConfig.Len]. *)
Definition Len (rows : list Row) : nat := List.length rows.

(** The strings of one tab and of one line feed. *)
Definition tab : string := String (ascii_of_nat 9) EmptyString.
Definition newline : string := String (ascii_of_nat 10) EmptyString.

(** The loop of [ToTextLine]; [res] is what the buffer holds.  A
    [bytes.Buffer] returns no error from [WriteString]. *)
Fixpoint ToTextLine_loop (r : Row) (sep : string) (names : list string) (cnt : Z)
    (res : string) : outcome string :=
  match names with
  | [] => Ret res
  | b :: names' =>
      let cnt := (cnt - 1)%Z in
      v ← match r !! b with
          | Some c => CellPtr_String c
          | None => Ret "<NULL>"
          end;
      let res := (res ++ v)%string in
      let res := if (0 <? cnt)%Z then (res ++ sep)%string else res in
      ToTextLine_loop r sep names' cnt res
  end.

(** [func (r Row) ToTextLine(res *bytes.Buffer, bs []string, sep string) error]:
    the contents of the buffer after the call (the error is nil
    whenever it returns). *)
Definition ToTextLine (r : Row) (res : string) (names : list string) (sep : string)
    : outcome string :=
  let sep := if String.eqb sep "" then tab else sep in
  ToTextLine_loop r sep names (Z.of_nat (List.length names)) res.

(** The loop of [ToText] over the rows: each row is written to the
    buffer [row], which is empty again for the next one. *)
Fixpoint ToText_rows (sep : string) (names : list string) (rows : list Row)
    (res : string) : outcome string :=
  match rows with
  | [] => Ret res
  | r :: rows' =>
      row ← ToTextLine r "" names sep;
      ToText_rows sep names rows' ((res ++ row) ++ newline)%string
  end.

(** [func (t *Table) ToText(sep string)], which returns the buffer and
    an [error]. *)
Definition ToText (sep : string) (t : Table) : outcome string :=
  ToText_rows sep (bs t) (data t) (String.concat sep (bs t) ++ newline)%string.

(** [func (t *Table) String() string]. *)
Definition Table_String (t : Table) : outcome string := ToText tab t.

(** [func (s SortConfig) String() string]. *)
Definition SortConfig_String (s : SortConfig) : string :=
  (foldl (λ b sc, ((b ++ Binding sc) ++ "->") ++ (if Desc sc then "DESC" else "ASC"))
         "[ " (default [] s) ++ " ]")%string.

End Access.

(** ** Notions used by the statements *)

Section Notions.
Context `{E : External}.

(** Two cells hold a value of the same kind: one of the five pointers
    is set in both. *)
Definition both_some {A B : Type} (x : option A) (y : option B) : bool :=
  match x, y with
  | Some _, Some _ => true
  | _, _ => false
  end.

Definition share_kind (ci cj : Cell) : bool :=
  both_some (Cell_S ci) (Cell_S cj) || both_some (Cell_N ci) (Cell_N cj)
  || both_some (Cell_P ci) (Cell_P cj) || both_some (Cell_L ci) (Cell_L cj)
  || both_some (Cell_T ci) (Cell_T cj).

(** The membership map [m] holds the names of [names] and nothing else. *)
Definition in_sync (names : list string) (m : gmap string bool) : Prop :=
  ∀ b, m !! b = if bool_decide (b ∈ names) then Some true else None.

(** The invariant of a table: no binding twice, and the map of the
    table in step with the list. *)
Definition table_inv (t : Table) (h : list (gmap string bool)) : Prop :=
  NoDup (bs t) ∧ in_sync (bs t) (map_at h (mbs t)).

(** The rows carry cells for declared bindings only. *)
Definition rows_declared (t : Table) : Prop :=
  ∀ r b, r ∈ data t → is_Some (r !! b) → b ∈ bs t.

(** The number of distinct renderings among the values [vs]. *)
Definition distinct_renderings (vs : list value) : nat :=
  size (list_to_set (fmt_v <$> vs) : gset string).

End Notions.

Section FurtherNotions.
Context `{E : External}.

(** No key of the row holds the nil pointer. *)
Definition no_nil_cell (r : Row) : Prop := ∀ b, r !! b ≠ Some None.

(** A row is not less than the row before it. *)
Definition not_before (cfg : SortConfig) (r1 r2 : Row) : Prop :=
  rowLess r2 r1 cfg = Ret false.

(** What a line of text shows for the binding [b] of the row [r]. *)
Definition cell_text (r : Row) (b : string) : string :=
  match r !! b with
  | Some (Some c) => Cell_String c
  | _ => "<NULL>"
  end.

(** The accumulator after it was fed the values [vs]. *)
Fixpoint feed_state (a : AccState) (vs : list value) : outcome AccState :=
  match vs with
  | [] => Ret a
  | v :: vs' => res ← Accumulate a v; feed_state res.2 vs'
  end.

(** What a literal adds to an integer sum: nothing when it has no
    [int64] value. *)
Definition int64_part (l : Literal) : Z :=
  match literal_Int64 l with
  | inl z => z
  | inr _ => 0%Z
  end.

Definition int64_error (l : Literal) : option error :=
  match literal_Int64 l with
  | inl _ => None
  | inr err => Some err
  end.

(** The values of type [int64]. *)
Definition is_int64 (z : Z) : Prop := (- 2 ^ 63 ≤ z < 2 ^ 63)%Z.

(** The names of a list, each once, in the order in which they first
    occur in it. *)
Fixpoint each_once (names : list string) : list string :=
  match names with
  | [] => []
  | b :: names' => b :: filter (λ x, x ≠ b) (each_once names')
  end.

End FurtherNotions.

(** ** Sample inputs *)

(** A stand-in for the imported packages, to run the operations on
    concrete tables: nodes, predicates and time anchors are given by
    their renderings, a literal is an [int64] rendered in decimal, and
    no literal is a [float64]. *)
Definition decimal (z : Z) : string := NilZero.string_of_int (Z.to_int z).

Definition sample : External := {|
  Node := string; node_String := id;
  Predicate := string; predicate_String := id;
  Literal := Z; literal_String := decimal; literal_ToComparableString := decimal;
  float64 := unit; float64_add := λ _ _, tt;
  literal_Int64 := inl; literal_Float64 := λ _, inr (ErrLiteral "not a float64");
  literal_Build_Int64 := inl; literal_Build_Float64 := λ _, inr (ErrLiteral "not built");
  TimeAnchor := string; time_Format_RFC3339Nano := id
|}.

(** Two orders of iteration: the one of [map_to_list], and its reverse. *)
Definition canonical : RangeOrder :=
  {| range_of := λ A m, map_to_list m;
     range_of_perm := λ A m, reflexivity (map_to_list m) |}.

Definition reversed : RangeOrder :=
  {| range_of := λ A m, reverse (map_to_list m);
     range_of_perm := λ A m, reverse_Permutation (map_to_list m) |}.

(** [&Cell{S: CellString(s)}] and a cell holding the literal [z]. *)
Definition text (s : string) : option (@Cell sample) :=
  Some (@mkCell sample (Some s) None None None None).
Definition lit (z : Z) : option (@Cell sample) :=
  Some (@mkCell sample None None None (Some z) None).

Definition row (l : list (string * option (@Cell sample))) : gmap string (option (@Cell sample)) :=
  list_to_map l.

Definition by_g : SortConfig := Some [{| Binding := "g"; Desc := false |}].

(** The table of the reduction example: bindings [g] and [val], rows
    (g=1,val=3), (g=1,val=4), (g=2,val=5). *)
Definition groups_maps : list (gmap string bool) := [ {[ "g" := true; "val" := true ]} ].
Definition groups_table : @Table sample :=
  AddRow (row [("g", lit 2); ("val", lit 5)])
    (AddRow (row [("g", lit 1); ("val", lit 4)])
       (AddRow (row [("g", lit 1); ("val", lit 3)])
          {| bs := ["g"; "val"]; mbs := 0; data := [] |})).
Definition groups_pairs : list AliasAccPair :=
  [ {| InAlias := "g"; OutAlias := "g"; Acc := None |};
    {| InAlias := "val"; OutAlias := "total"; Acc := Some 0 |} ].

(** A table with bindings [g] and [v] whose second row has no cell
    for [g]. *)
Definition sparse_maps : list (gmap string bool) := [ {[ "g" := true; "v" := true ]} ].
Definition sparse_table : @Table sample :=
  AddRow (row [("v", text "a")])
    (AddRow (row [("g", text "b"); ("v", text "a")])
       {| bs := ["g"; "v"]; mbs := 0; data := [] |}).
Definition sparse_pairs : list AliasAccPair :=
  [ {| InAlias := "g"; OutAlias := "g"; Acc := None |};
    {| InAlias := "v"; OutAlias := "n"; Acc := Some 0 |} ].

(** A table with the binding [h] whose two rows, out of order, carry a
    cell for [g] only. *)
Definition stray_maps : list (gmap string bool) := [ {[ "h" := true ]} ].
Definition stray_table : @Table sample :=
  AddRow (row [("g", text "a")])
    (AddRow (row [("g", text "b")])
       {| bs := ["h"]; mbs := 0; data := [] |}).
Definition stray_pairs : list AliasAccPair :=
  [ {| InAlias := "h"; OutAlias := "h"; Acc := None |} ].

(** A table with the binding [a] and no row. *)
Definition empty_maps : list (gmap string bool) := [ {[ "a" := true ]} ].
Definition empty_table : @Table sample := {| bs := ["a"]; mbs := 0; data := [] |}.

(** Two tables with the bindings [a] and [b], each with one row that
    also carries a cell under the undeclared name [x]. *)
Definition left_table : @Table sample :=
  AddRow (row [("a", text "1"); ("x", text "left")]) {| bs := ["a"]; mbs := 0; data := [] |}.
Definition right_table : @Table sample :=
  AddRow (row [("b", text "2"); ("x", text "right")]) {| bs := ["b"]; mbs := 1; data := [] |}.
Definition pair_maps : list (gmap string bool) := [ {[ "a" := true ]}; {[ "b" := true ]} ].

(** Two tables with the bindings [a] and [b] whose rows carry the
    declared bindings only. *)
Definition one_table : @Table sample :=
  AddRow (row [("a", text "2")])
    (AddRow (row [("a", text "1")]) {| bs := ["a"]; mbs := 0; data := [] |}).
Definition other_table : @Table sample :=
  AddRow (row [("b", text "3")]) {| bs := ["b"]; mbs := 1; data := [] |}.

(** A table with the bindings [g] and [v] whose first two rows hold
    the empty string under [g]. *)
Definition blank_table : @Table sample :=
  AddRow (row [("g", text "a"); ("v", text "y")])
    (AddRow (row [("g", text ""); ("v", text "x")])
       (AddRow (row [("g", text ""); ("v", text "w")])
          {| bs := ["g"; "v"]; mbs := 0; data := [] |})).

(** A table with the bindings [g] and [v] whose two rows are out of
    order, and an accumulator of the caller that turns down every
    value. *)
Definition unsorted_table : @Table sample :=
  AddRow (row [("g", text "a"); ("v", text "y")])
    (AddRow (row [("g", text "b"); ("v", text "x")])
       {| bs := ["g"; "v"]; mbs := 0; data := [] |}).
Definition rejecting : @AccState sample :=
  callerAcc [] (λ _, (A_other, Some (ErrLiteral "rejected"))).

(** A table with the binding [g] whose only row has no cell for [g]. *)
Definition lone_table : @Table sample :=
  AddRow (row [("v", text "a")]) {| bs := ["g"]; mbs := 0; data := [] |}.

(** * Properties *)

(** ** The sample tables *)

(** The sample tables are what [New] makes, in an empty store (and,
    for the second table of a pair, in the store the first one left),
    before their rows are added. *)
Lemma samples_from_New :
  New ["g"; "val"] [] = inl (with_data groups_table [], groups_maps)
  ∧ New ["g"; "v"] [] = inl (with_data sparse_table [], sparse_maps)
  ∧ New ["h"] [] = inl (with_data stray_table [], stray_maps)
  ∧ New ["a"] [] = inl (empty_table, empty_maps)
  ∧ New ["a"] [] = inl (with_data left_table [], [ {[ "a" := true ]} ])
  ∧ New ["b"] [ {[ "a" := true ]} ] = inl (with_data right_table [], pair_maps)
  ∧ New ["a"] [] = inl (with_data one_table [], [ {[ "a" := true ]} ])
  ∧ New ["b"] [ {[ "a" := true ]} ] = inl (with_data other_table [], pair_maps)
  ∧ with_data blank_table [] = with_data sparse_table []
  ∧ with_data unsorted_table [] = with_data sparse_table [].
Proof. split_and!; reflexivity. Qed.

(** ** The comparator *)

Section Comparator.
Context `{E : External}.

Lemma both_set_skip {A : Type} (xi : option A) (cj : Cell) (X : Cell → option A)
    (render : A → string) (cur : string * string) :
  both_some xi (X cj) = false → both_set xi (Some cj) X render cur = Ret cur.
Proof.
  unfold both_some, both_set. destruct xi as [x|]; [|done].
  by destruct (X cj).
Qed.

Lemma stringLess_empty (desc : bool) : stringLess "" "" desc = 0%Z.
Proof. by destruct desc. Qed.

(** C10: when both rows carry the binding of the entry under
    comparison and their cells do not hold a value of the same kind
    (no kind is set in both, which covers two cells without a value),
    [rowLess] ties the rows at that key: it answers [false] when the
    entry is the last one, and what the remaining entries give
    otherwise. *)
Theorem rowLess_kind_mismatch (ri rj : Row) (cfg : SortEntry) (rest : list SortEntry)
    (ci cj : Cell) :
  ri !! Binding cfg = Some (Some ci) →
  rj !! Binding cfg = Some (Some cj) →
  share_kind ci cj = false →
  rowLess ri rj (Some (cfg :: rest)) =
    if bool_decide (rest = []) then Ret false else rowLess ri rj (Some rest).
Proof.
  intros Hi Hj Hk. unfold share_kind in Hk.
  repeat (apply orb_false_iff in Hk as [Hk ?]).
  cbn [rowLess rowLess_entries]. rewrite Hi, Hj.
  do 5 (rewrite both_set_skip by done; cbn [mbind outcome_bind]).
  cbn [fst snd]. rewrite stringLess_empty. cbn.
  by case_bool_decide.
Qed.

(** The two reads [ri[cfg.Binding]] and [rj[cfg.Binding]] that start
    [rowLess]: a missing key ends the process. *)
Lemma rowLess_entries_missing (ri rj : Row) (cfg : SortEntry) (rest : list SortEntry) :
  ri !! Binding cfg = None ∨ rj !! Binding cfg = None →
  rowLess_entries ri rj (cfg :: rest) = Fatal.
Proof.
  intros [H|H]; cbn [rowLess_entries]; rewrite H; [done|].
  by destruct (ri !! Binding cfg).
Qed.

End Comparator.

Lemma rowLess_kind_mismatch_witness :
  rowLess (row [("g", text "b")]) (row [("g", lit 7)])
    (Some [{| Binding := "g"; Desc := true |}; {| Binding := "g"; Desc := false |}])
  = Ret false.
Proof.
  rewrite (rowLess_kind_mismatch _ _ _ _
             (@mkCell sample (Some "b") None None None None)
             (@mkCell sample None None None (Some 7%Z) None))
    by reflexivity.
  rewrite (rowLess_kind_mismatch _ _ _ _
             (@mkCell sample (Some "b") None None None None)
             (@mkCell sample None None None (Some 7%Z) None))
    by reflexivity.
  reflexivity.
Defined.

(** ** Limit *)

Section Limiting.
Context `{E : External}.

(** C7, as the code has it: [Limit(n)] with [0 ≤ n] below the number
    of rows keeps the first [n] rows, in their order, and nothing
    else of the table changes; with [n] at or above the number of rows
    it changes nothing; with [n] negative it does not return (there is
    no error result: [make] panics on the negative length). *)
Theorem Limit_spec (t : Table) (n : Z) :
  ((0 ≤ n < Z.of_nat (NumRows t))%Z →
     ∃ t', Limit n t = Ret t' ∧ bs t' = bs t ∧ mbs t' = mbs t
           ∧ data t' = take (Z.to_nat n) (data t)
           ∧ NumRows t' = Z.to_nat n)
  ∧ ((Z.of_nat (NumRows t) ≤ n)%Z → Limit n t = Ret t)
  ∧ ((n < 0)%Z → Limit n t = Panic).
Proof.
  unfold Limit, NumRows. split_and!; intros Hn.
  - rewrite bool_decide_true by lia. rewrite bool_decide_false by lia.
    eexists. split_and!; try reflexivity.
    cbn. rewrite length_take. lia.
  - by rewrite bool_decide_false by lia.
  - rewrite bool_decide_true by lia. by rewrite bool_decide_true by lia.
Qed.

End Limiting.

Lemma Limit_spec_witness :
  (∃ t', Limit 2 groups_table = Ret t' ∧ NumRows t' = 2%nat
         ∧ data t' = take 2 (data groups_table))
  ∧ Limit 10 groups_table = Ret groups_table
  ∧ Limit (-1) groups_table = Panic.
Proof.
  assert (NumRows groups_table = 3%nat) as Hrows by reflexivity.
  destruct (Limit_spec groups_table 2) as (H2 & _ & _).
  destruct (Limit_spec groups_table 10) as (_ & H10 & _).
  destruct (Limit_spec groups_table (-1)) as (_ & _ & Hneg).
  rewrite Hrows in H2, H10.
  split_and!.
  - destruct H2 as (t' & ? & ? & ? & ? & ?); [lia|]. by exists t'.
  - apply H10. lia.
  - apply Hneg. lia.
Defined.

(** C7 as stated fails: a negative [n] is not turned down with an
    error; the call panics. *)
Lemma Limit_negative_panics : Limit (-1) groups_table = Panic.
Proof. reflexivity. Qed.

(** ** The accumulator that counts distinct values *)

Section CountDistinct.
Context `{E : External}.

Lemma feed_countDistinctAcc (m : gmap string Z) (vs : list value) :
  feed (countDistinctAcc m) vs =
    (λ k, Ret (A_int64 (Z.of_nat (size (dom m ∪ list_to_set (fmt_v <$> take (S k) vs)))),
               None))
    <$> seq 0 (List.length vs).
Proof.
  revert m. induction vs as [|v vs IH]; intros m; [done|].
  cbn [feed Accumulate]. rewrite IH. cbn [List.length seq fmap list_fmap].
  f_equal.
  - do 3 f_equal. rewrite <- size_dom, dom_insert_L.
    cbn. rewrite take_0. do 2 f_equal. apply set_eq. intros x. set_unfold. tauto.
  - rewrite <- fmap_S_seq, <- list_fmap_compose.
    apply list_fmap_ext. intros _ k _. cbn.
    do 5 f_equal. rewrite dom_insert_L. apply set_eq. intros x. set_unfold. tauto.
Qed.

(** C8: after a [Reset], each call of [Accumulate] on the accumulator
    of distinct values returns, without error, the number of distinct
    renderings of the values fed since the [Reset], the current one
    included; values rendering as x, y, x, z give 1, 2, 2, 3. *)
Theorem countDistinct_running (st : gmap string Z) (vs : list value) :
  feed (Reset (countDistinctAcc st)) vs =
    (λ k, Ret (A_int64 (Z.of_nat (distinct_renderings (take (S k) vs))), None))
    <$> seq 0 (List.length vs)
  ∧ feed (Reset (countDistinctAcc st)) (V_string <$> ["x"; "y"; "x"; "z"]) =
      [Ret (A_int64 1, None); Ret (A_int64 2, None);
       Ret (A_int64 2, None); Ret (A_int64 3, None)].
Proof.
  split.
  - cbn [Reset]. rewrite feed_countDistinctAcc.
    apply list_fmap_ext. intros _ k _. unfold distinct_renderings.
    by rewrite dom_empty_L, (left_id_L ∅ (∪)).
  - reflexivity.
Qed.

End CountDistinct.

(** ** The bindings of a table *)

Section Directory.
Context `{E : External}.

Lemma has_in_sync (names : list string) (m : gmap string bool) (b : string) :
  in_sync names m → has m b = bool_decide (b ∈ names).
Proof. intros Hs. unfold has. rewrite (Hs b). by case_bool_decide. Qed.

Lemma map_at_app_new (h : list (gmap string bool)) (m : gmap string bool) :
  map_at (h ++ [m]) (List.length h) = m.
Proof. unfold map_at. by rewrite list_lookup_middle. Qed.

Lemma map_at_insert (h : list (gmap string bool)) (l : nat) (m : gmap string bool) :
  l < List.length h → map_at (<[l := m]> h) l = m.
Proof. intros Hl. unfold map_at. by rewrite list_lookup_insert_eq. Qed.

Lemma in_sync_snoc (names : list string) (m : gmap string bool) (b : string) :
  in_sync names m → in_sync (names ++ [b]) (<[b := true]> m).
Proof.
  intros Hs x. destruct (decide (b = x)) as [->|Hne].
  - rewrite lookup_insert_eq. rewrite bool_decide_true; [done|]. set_solver.
  - rewrite lookup_insert_ne by done. rewrite (Hs x).
    apply (f_equal (λ c : bool, if c then Some true else None)).
    apply bool_decide_ext. set_solver.
Qed.

(** What [AddBindings] does to a table whose map is in the store and
    in step with its list: the names not yet bound are appended, in
    the order given and once each; the map of the table is updated in
    place and stays in step; nothing else changes. *)
Lemma AddBindings_inv (names : list string) :
  ∀ (t : Table) (h : list (gmap string bool)) t' h',
    AddBindings names t h = (t', h') →
    mbs t < List.length h →
    table_inv t h →
    mbs t' = mbs t ∧ data t' = data t ∧ List.length h' = List.length h
    ∧ (∀ l, l ≠ mbs t → h' !! l = h !! l)
    ∧ table_inv t' h'
    ∧ ∃ extra, bs t' = bs t ++ extra
        ∧ (∀ b, b ∈ extra ↔ b ∈ names ∧ b ∉ bs t)
        ∧ (NoDup names → (∀ b, b ∈ names → b ∉ bs t) → extra = names).
Proof.
  induction names as [|b names IH]; intros t h t' h' Hrun Hl [Hnd Hs].
  - cbn in Hrun. injection Hrun as <- <-. split_and!; try done.
    exists []. rewrite app_nil_r. split_and!; [done| |done].
    intros b. split; [by intros ?%elem_of_nil|by intros [?%elem_of_nil _]].
  - unfold AddBindings in Hrun. cbn [foldl] in Hrun.
    rewrite (has_in_sync _ _ _ Hs) in Hrun. case_bool_decide as Hb.
    + apply IH in Hrun as (? & ? & ? & ? & ? & extra & ? & Hex & Hall); [|done|done].
      split_and!; try done. exists extra. split_and!; [done| |].
      * intros x. rewrite Hex. set_solver.
      * intros _ Hfresh. exfalso. apply (Hfresh b); [set_solver|done].
    + apply IH in Hrun as (Hm & Hd & Hlen & Hother & Hinv & extra & Hbs & Hex & Hall).
      * cbn in Hm, Hd, Hbs, Hex, Hall. rewrite length_insert in Hlen.
        split_and!; try done.
        -- intros l Hne. rewrite Hother by done. by rewrite list_lookup_insert_ne.
        -- exists (b :: extra). split_and!.
           ++ by rewrite Hbs, <- app_assoc.
           ++ intros x. rewrite !elem_of_cons, Hex, elem_of_app, list_elem_of_singleton.
              destruct (decide (x = b)) as [->|]; [tauto|]. tauto.
           ++ intros Hnd' Hfresh. apply NoDup_cons in Hnd' as [Hb' Hnd'].
              f_equal. apply Hall; [done|].
              intros x Hx. rewrite elem_of_app, list_elem_of_singleton.
              intros [Hin| ->]; [|done]. apply (Hfresh x); [by right|done].
      * cbn. by rewrite length_insert.
      * split; cbn.
        -- apply NoDup_app. split_and!; [done|set_solver|apply NoDup_singleton].
        -- rewrite map_at_insert by done. by apply in_sync_snoc.
Qed.

End Directory.

(** C4 on the code: on the table [New] makes for the binding [a],
    which has no row, projecting onto the name [x], which is not
    bound, returns no error; the test of the names is never reached.
    Nor is the projection: onto the empty list, a subset of the
    bindings, the call returns no error and the bindings stay [a].
    Once the table has a row the same calls return the error for [x]
    and leave no binding. *)
Lemma ProjectBindings_no_rows_no_error :
  New ["a"] [] = inl (empty_table, empty_maps)
  ∧ HasBinding "x" empty_table empty_maps = false
  ∧ ProjectBindings ["x"] empty_table empty_maps = (None, (empty_table, empty_maps))
  ∧ ProjectBindings [] empty_table empty_maps = (None, (empty_table, empty_maps))
  ∧ Bindings empty_table = ["a"]
  ∧ ProjectBindings ["x"] (AddRow (row [("a", text "1")]) empty_table) empty_maps
    = (Some (ErrProjectUnknownBinding "x"),
       (AddRow (row [("a", text "1")]) empty_table, empty_maps))
  ∧ ∃ t' h', ProjectBindings [] (AddRow (row [("a", text "1")]) empty_table) empty_maps
             = (None, (t', h'))
             ∧ Bindings t' = [].
Proof. split_and!; try reflexivity. by eexists _, _. Qed.

Section Construction.
Context `{E : External}.

Lemma fold_true_lookup (ks : list string) :
  ∀ (m0 : gmap string bool) (b : string),
    foldl (λ m k, <[k := true]> m) m0 ks !! b =
      if bool_decide (b ∈ ks) then Some true else m0 !! b.
Proof.
  induction ks as [|k ks IH]; intros m0 b; cbn [foldl].
  - by rewrite bool_decide_false by apply not_elem_of_nil.
  - rewrite IH. destruct (decide (b ∈ ks)) as [Hin|Hnin].
    + rewrite !bool_decide_true; [done|by right|done].
    + rewrite (bool_decide_false (b ∈ ks)) by done.
      destruct (decide (k = b)) as [->|Hne].
      * rewrite lookup_insert_eq. by rewrite bool_decide_true by left.
      * rewrite lookup_insert_ne by done. rewrite bool_decide_false; [done|].
        intros [->|?]%elem_of_cons; done.
Qed.

Lemma fold_true_dom (ks : list string) :
  dom (foldl (λ m k, <[k := true]> m) (∅ : gmap string bool) ks) = list_to_set ks.
Proof.
  apply set_eq. intros b. rewrite elem_of_dom, fold_true_lookup, elem_of_list_to_set.
  case_bool_decide; rewrite ?lookup_empty; split; try done.
Qed.

Lemma size_list_to_set_le (l : list string) :
  (size (list_to_set l : gset string) ≤ List.length l)%nat.
Proof.
  induction l as [|a l IH]; [done|]. cbn.
  rewrite size_union_alt, size_singleton.
  assert (size (list_to_set l ∖ {[a]} : gset string) ≤ size (list_to_set l : gset string))%nat.
  { apply subseteq_size. set_solver. }
  lia.
Qed.

Lemma size_list_to_set_NoDup (l : list string) :
  size (list_to_set l : gset string) = List.length l ↔ NoDup l.
Proof.
  split; [|apply size_list_to_set].
  induction l as [|a l IH]; intros Hsize; [apply NoDup_nil_2|].
  pose proof (size_list_to_set_le l) as Hle. cbn in Hsize.
  destruct (decide (a ∈ l)) as [Hin|Hnin].
  - rewrite (subseteq_union_1_L {[a]} (list_to_set l)) in Hsize by set_solver. lia.
  - rewrite size_union in Hsize by set_solver. rewrite size_singleton in Hsize.
    apply NoDup_cons. split; [done|]. apply IH. lia.
Qed.

(** [New] on a list without repeats makes a table with these bindings,
    no row and a fresh map in step with the list; on a list with a
    repeat it fails. *)
Lemma New_spec (names : list string) (h : list (gmap string bool)) :
  (NoDup names →
     ∃ t h', New names h = inl (t, h') ∧ bs t = names ∧ data t = []
             ∧ mbs t = List.length h ∧ table_inv t h'
             ∧ ∀ l, l < List.length h → h' !! l = h !! l)
  ∧ (¬ NoDup names → New names h = inr ErrNewDuplicatedBindings).
Proof.
  unfold New.
  assert (size (foldl (λ m k, <[k := true]> m) (∅ : gmap string bool) names)
          = size (list_to_set names : gset string)) as Hsize.
  { by rewrite <- size_dom, fold_true_dom. }
  split; intros Hnd.
  - rewrite bool_decide_false.
    + eexists _, _. split_and!; try reflexivity.
      * split; cbn; [done|]. rewrite map_at_app_new. intros b.
        rewrite fold_true_lookup. by rewrite lookup_empty.
      * intros l Hl. by rewrite lookup_app_l.
    + intros Hne. apply Hne. rewrite Hsize. by apply size_list_to_set_NoDup.
  - rewrite bool_decide_true; [done|].
    rewrite Hsize. by rewrite size_list_to_set_NoDup.
Qed.

(** [AppendTable] between two tables that satisfy the invariant leaves
    a receiver that satisfies it, in a store it does not change. *)
Lemma AppendTable_inv (t2 t t' : Table) (h : list (gmap string bool)) (err : option error) :
  AppendTable (Some t2) t h = (err, t') →
  table_inv t h → table_inv t2 h → table_inv t' h.
Proof.
  unfold AppendTable. intros Hrun Ht Ht2.
  destruct (_ && _); [by injection Hrun as <- <-|].
  injection Hrun as <- <-. by case_bool_decide.
Qed.

End Construction.

(** C9 on the code: a table without bindings that appends another
    table takes over its map by reference; a later [AddBindings] on
    the receiver then writes into the map of the other table, whose
    list is left as it was.  The other table no longer satisfies the
    invariant. *)
Lemma shared_map_breaks_invariant :
  ∃ (t2 t t' t'' : @Table sample) (h1 h2 h3 : list (gmap string bool)),
    New ["a"] [] = inl (t2, h1)
    ∧ New [] h1 = inl (t, h2)
    ∧ table_inv t2 h2 ∧ table_inv t h2
    ∧ AppendTable (Some t2) t h2 = (None, t')
    ∧ mbs t' = mbs t2
    ∧ AddBindings ["z"] t' h2 = (t'', h3)
    ∧ Bindings t2 = ["a"]
    ∧ HasBinding "z" t2 h3 = true
    ∧ ¬ table_inv t2 h3.
Proof.
  eexists _, _, _, _, _, _, _.
  split_and!; try reflexivity.
  - split; [apply NoDup_singleton|]. intros b. cbn.
    destruct (decide (b = "a")) as [->|Hne].
    + by rewrite bool_decide_true by left.
    + rewrite bool_decide_false by (by rewrite list_elem_of_singleton).
      unfold map_at. cbn. by rewrite lookup_insert_ne.
  - split; [apply NoDup_nil_2|]. intros b. cbn.
    by rewrite bool_decide_false by apply not_elem_of_nil.
  - intros [_ Hs]. specialize (Hs "z"). by vm_compute in Hs.
Qed.

(** ** The product of two tables *)

Section Product.
Context `{E : External}.

Lemma disjointBinding_spec (m1 m2 : gmap string bool) :
  disjointBinding m1 m2 = true ↔ ∀ b, is_Some (m1 !! b) → has m2 b = false.
Proof.
  unfold disjointBinding. rewrite forallb_forall. split.
  - intros Hall b [v Hv]. apply negb_true_iff.
    apply (Hall (b, v)). apply list_elem_of_In. by apply elem_of_map_to_list.
  - intros Hall [b v] Hin%list_elem_of_In%elem_of_map_to_list. cbn.
    apply negb_true_iff. apply Hall. by exists v.
Qed.

Lemma MergeRows_pair (r1 r2 : Row) (b : string) :
  MergeRows [r1; r2] !! b =
    match r2 !! b with
    | Some c => Some c
    | None => r1 !! b
    end.
Proof.
  unfold MergeRows. cbn [foldl]. rewrite !lookup_union, lookup_empty.
  destruct (r2 !! b), (r1 !! b); done.
Qed.

Lemma product_lookup {A B C : Type} (f : A → B → C) (l1 : list A) (l2 : list B) :
  ∀ i j a b, l1 !! i = Some a → l2 !! j = Some b →
    (x ← l1; y ← l2; [f x y]) !! (i * List.length l2 + j) = Some (f a b).
Proof.
  assert (∀ a, (y ← l2; [f a y]) = f a <$> l2) as Hinner.
  { intros a. induction l2 as [|y l2 IH]; [done|]. cbn. by rewrite <- IH. }
  induction l1 as [|x l1 IH]; intros i j a b Hi Hj; [done|].
  rewrite bind_cons, Hinner. destruct i as [|i]; cbn in Hi.
  - injection Hi as ->. cbn [Nat.mul Nat.add]. rewrite lookup_app_l.
    + by rewrite list_lookup_fmap, Hj.
    + rewrite length_fmap. by apply lookup_lt_Some in Hj.
  - rewrite lookup_app_r; rewrite length_fmap; [|cbn; lia].
    replace (S i * List.length l2 + j - List.length l2) with (i * List.length l2 + j)
      by (cbn; lia).
    by apply IH.
Qed.

Lemma product_length {A B C : Type} (f : A → B → C) (l1 : list A) (l2 : list B) :
  List.length (x ← l1; y ← l2; [f x y]) = List.length l1 * List.length l2.
Proof.
  assert (∀ a, (y ← l2; [f a y]) = f a <$> l2) as Hinner.
  { intros a. induction l2 as [|y l2 IH]; [done|]. cbn. by rewrite <- IH. }
  induction l1 as [|x l1 IH]; [done|].
  rewrite bind_cons, length_app, IH, Hinner, length_fmap. cbn. lia.
Qed.

Lemma product_elem {A B C : Type} (f : A → B → C) (l1 : list A) (l2 : list B) (c : C) :
  c ∈ (x ← l1; y ← l2; [f x y]) ↔ ∃ a b, a ∈ l1 ∧ b ∈ l2 ∧ c = f a b.
Proof.
  rewrite list_elem_of_bind. split.
  - intros (a & (b & Hc%list_elem_of_singleton & Hb)%list_elem_of_bind & Ha). by exists a, b.
  - intros (a & b & Ha & Hb & ->). exists a. split; [|done].
    apply list_elem_of_bind. exists b. split; [|done]. by apply list_elem_of_singleton.
Qed.

Lemma range_key_elem (m : gmap string bool) (b : string) :
  b ∈ (map_to_list m).*1 ↔ is_Some (m !! b).
Proof.
  rewrite list_elem_of_fmap. split.
  - intros ([k v] & -> & Hin%elem_of_map_to_list). by exists v.
  - intros [v Hv]. exists (b, v). split; [done|]. by apply elem_of_map_to_list.
Qed.

(** The map built by the first two loops of [DotProduct] holds the
    keys of the two maps, each with [true]. *)
Lemma DotProduct_map_lookup (m1 m2 : gmap string bool) (b : string) :
  foldl (λ m kv, <[kv.1 := true]> m) (∅ : gmap string bool)
    (map_to_list m1 ++ map_to_list m2) !! b
  = if bool_decide (is_Some (m1 !! b) ∨ is_Some (m2 !! b)) then Some true else None.
Proof.
  rewrite <- (foldl_fmap (λ m k, <[k := true]> m) ∅ _ fst).
  rewrite fold_true_lookup, lookup_empty.
  apply (f_equal (λ c : bool, if c then Some true else None)).
  apply bool_decide_ext. by rewrite fmap_app, elem_of_app, !range_key_elem.
Qed.

(** What [DotProduct] returns, by what the two maps hold. *)
Lemma DotProduct_run (ord : RangeOrder) (t2 t : Table) (h : list (gmap string bool)) :
  ((∀ b, is_Some (map_at h (mbs t) !! b) → HasBinding b t2 h = false) →
     ∃ m, (∀ b, m !! b = if bool_decide (is_Some (map_at h (mbs t) !! b)
                                          ∨ is_Some (map_at h (mbs t2) !! b))
                         then Some true else None)
          ∧ DotProduct ord t2 t h =
              (None, ({| bs := (range_of ord bool m).*1; mbs := List.length h;
                         data := r1 ← data t; r2 ← data t2; [MergeRows [r1; r2]] |},
                      h ++ [m])))
  ∧ ((∃ b, is_Some (map_at h (mbs t) !! b) ∧ HasBinding b t2 h = true) →
     DotProduct ord t2 t h = (Some ErrDotProductBindings, (t, h))).
Proof.
  unfold DotProduct, HasBinding.
  pose proof (disjointBinding_spec (map_at h (mbs t)) (map_at h (mbs t2))) as Hdisj. split.
  - intros Hfresh. rewrite (proj2 Hdisj Hfresh). cbn.
    eexists. split; [|reflexivity]. apply DotProduct_map_lookup.
  - intros (b & Hb1 & Hb2).
    assert (disjointBinding (map_at h (mbs t)) (map_at h (mbs t2)) = false) as ->; [|done].
    apply not_true_iff_false. intros Hd. by rewrite (proj1 Hdisj Hd b Hb1) in Hb2.
Qed.

(** On tables in step with their maps, what the maps hold is what the
    binding lists hold. *)
Lemma in_sync_key (names : list string) (m : gmap string bool) (b : string) :
  in_sync names m → is_Some (m !! b) ↔ b ∈ names.
Proof. intros Hs. rewrite (Hs b). case_bool_decide; split; try done; by intros [? ?]. Qed.

Lemma in_sync_has (names : list string) (m : gmap string bool) (b : string) :
  in_sync names m → has m b = true ↔ b ∈ names.
Proof. intros Hs. rewrite (has_in_sync _ _ _ Hs). by rewrite bool_decide_eq_true. Qed.

(** C5, as the code has it.  [DotProduct] looks at the two maps: when
    no key of the map of the receiver is a name that [HasBinding]
    answers for on the other table, it returns no error and the rows
    of the receiver become the merges of every row of the receiver
    with every row of the other table, receiver rows first: [n1 * n2]
    rows; in a merge a key of both rows keeps the cell of the row of
    the other table, and when the rows only carry declared bindings
    and no binding is in both lists a merge has the cells of both rows
    and no other.  When a key of the map of the receiver is such a
    name, [DotProduct] returns an error and the table and the store
    stay as they were.  On two tables in step with their maps the two
    cases are: no binding is in both lists, some binding is in both. *)
Theorem DotProduct_spec (ord : RangeOrder) (t2 t : Table) (h : list (gmap string bool)) :
  ((∀ b, is_Some (map_at h (mbs t) !! b) → HasBinding b t2 h = false) →
     ∃ t' h', DotProduct ord t2 t h = (None, (t', h'))
       ∧ NumRows t' = NumRows t * NumRows t2
       ∧ (∀ i j r1 r2, data t !! i = Some r1 → data t2 !! j = Some r2 →
            data t' !! (i * NumRows t2 + j) = Some (MergeRows [r1; r2]))
       ∧ (∀ r, r ∈ data t' → ∃ r1 r2, r1 ∈ data t ∧ r2 ∈ data t2 ∧ r = MergeRows [r1; r2])
       ∧ (∀ r1 r2 b, MergeRows [r1; r2] !! b =
            match r2 !! b with Some c => Some c | None => r1 !! b end)
       ∧ (rows_declared t → rows_declared t2 → (∀ b, b ∈ bs t → b ∉ bs t2) →
          ∀ r1 r2 b c, r1 ∈ data t → r2 ∈ data t2 →
            MergeRows [r1; r2] !! b = Some c ↔ r1 !! b = Some c ∨ r2 !! b = Some c))
  ∧ ((∃ b, is_Some (map_at h (mbs t) !! b) ∧ HasBinding b t2 h = true) →
     DotProduct ord t2 t h = (Some ErrDotProductBindings, (t, h)))
  ∧ (in_sync (bs t) (map_at h (mbs t)) → in_sync (bs t2) (map_at h (mbs t2)) →
     ((∀ b, is_Some (map_at h (mbs t) !! b) → HasBinding b t2 h = false)
      ↔ (∀ b, b ∈ bs t → b ∉ bs t2))
     ∧ ((∃ b, is_Some (map_at h (mbs t) !! b) ∧ HasBinding b t2 h = true)
        ↔ (∃ b, b ∈ bs t ∧ b ∈ bs t2))).
Proof.
  destruct (DotProduct_run ord t2 t h) as [Hok Herr].
  split_and!; [|done|].
  - intros Hfresh. destruct (Hok Hfresh) as (m & _ & ->).
    eexists _, _. split; [reflexivity|]. unfold NumRows. cbn [data].
    split_and!.
    + apply (product_length (λ r1 r2, MergeRows [r1; r2])).
    + intros i j r1 r2. apply (product_lookup (λ r1 r2, MergeRows [r1; r2])).
    + intros r Hr. apply (product_elem (λ r1 r2, MergeRows [r1; r2])) in Hr.
      destruct Hr as (r1 & r2 & ? & ? & ->). by exists r1, r2.
    + apply MergeRows_pair.
    + intros Hd1 Hd2 Hlists r1 r2 b c Hr1 Hr2. rewrite MergeRows_pair.
      destruct (r2 !! b) as [c2|] eqn:Hb2.
      * destruct (r1 !! b) as [c1|] eqn:Hb1.
        -- exfalso. apply (Hlists b).
           ++ apply (Hd1 r1); [done|]. by rewrite Hb1.
           ++ apply (Hd2 r2); [done|]. by rewrite Hb2.
        -- split; [by right|]. by intros [?|?].
      * split; [by left|]. by intros [?|?].
  - intros H1 H2. unfold HasBinding. split.
    + split; intros Hall b.
      * intros Hb Hb2. apply (in_sync_key _ _ b H1) in Hb.
        apply (in_sync_has _ _ b H2) in Hb2. by rewrite (Hall b Hb) in Hb2.
      * intros Hb%(in_sync_key _ _ b H1). apply not_true_iff_false.
        intros Hb2%(in_sync_has _ _ b H2). by apply (Hall b).
    + split; intros (b & Hb & Hb2); exists b.
      * split; [by apply (in_sync_key _ _ b H1)|by apply (in_sync_has _ _ b H2)].
      * split; [by apply (in_sync_key _ _ b H1)|by apply (in_sync_has _ _ b H2)].
Qed.

(** C6, as the code has it.  After a [DotProduct] that returns no
    error the binding list of the receiver is an enumeration without
    repeats of the keys of the two maps, in the order in which the new
    map is ranged over, which Go does not fix; the receiver has a map
    of its own, in step with the list, and the maps of the store are
    as they were.  On two tables in step with their maps the keys are
    the bindings of both tables, and when neither list has a repeat
    the new list is a rearrangement of the one list followed by the
    other. *)
Theorem DotProduct_bindings (ord : RangeOrder) (t2 t t' : Table)
    (h h' : list (gmap string bool)) :
  DotProduct ord t2 t h = (None, (t', h')) →
  NoDup (Bindings t')
  ∧ (∀ b, b ∈ Bindings t'
          ↔ is_Some (map_at h (mbs t) !! b) ∨ is_Some (map_at h (mbs t2) !! b))
  ∧ Bindings t' = (range_of ord bool (map_at h' (mbs t'))).*1
  ∧ mbs t' = List.length h
  ∧ table_inv t' h'
  ∧ (∀ l, l < List.length h → h' !! l = h !! l)
  ∧ (in_sync (bs t) (map_at h (mbs t)) → in_sync (bs t2) (map_at h (mbs t2)) →
     (∀ b, b ∈ Bindings t' ↔ b ∈ Bindings t ∨ b ∈ Bindings t2)
     ∧ (NoDup (bs t) → NoDup (bs t2) → Bindings t' ≡ₚ Bindings t ++ Bindings t2)).
Proof.
  intros Hrun.
  destruct (disjointBinding (map_at h (mbs t)) (map_at h (mbs t2))) eqn:Hd.
  2:{ unfold DotProduct in Hrun. by rewrite Hd in Hrun. }
  pose proof (proj1 (disjointBinding_spec _ _) Hd) as Hfresh. clear Hd.
  rename Hfresh into Hd.
  destruct (DotProduct_run ord t2 t h) as [Hok _].
  destruct (Hok Hd) as (m & Hm & Hrun'). rewrite Hrun' in Hrun.
  injection Hrun as <- <-. unfold Bindings. cbn [bs mbs]. rewrite map_at_app_new.
  assert ((range_of ord bool m).*1 ≡ₚ (map_to_list m).*1) as Hperm
    by (by rewrite (range_of_perm ord)).
  assert (∀ b, b ∈ (range_of ord bool m).*1
               ↔ is_Some (map_at h (mbs t) !! b) ∨ is_Some (map_at h (mbs t2) !! b))
    as Hmem.
  { intros b. rewrite Hperm, range_key_elem, (Hm b).
    case_bool_decide; split; try done; by intros [? ?]. }
  assert (NoDup (range_of ord bool m).*1) as Hnd.
  { rewrite Hperm. apply NoDup_fst_map_to_list. }
  split_and!; try done.
  - split; cbn [bs mbs]; [done|]. rewrite map_at_app_new. intros b. rewrite (Hm b).
    apply (f_equal (λ c : bool, if c then Some true else None)).
    apply bool_decide_ext. by rewrite Hmem.
  - intros l Hl. by rewrite lookup_app_l.
  - intros H1 H2.
    assert (∀ b, b ∈ (range_of ord bool m).*1 ↔ b ∈ bs t ∨ b ∈ bs t2) as Hboth.
    { intros b. by rewrite Hmem, (in_sync_key _ _ b H1), (in_sync_key _ _ b H2). }
    split; [done|]. intros Hnd1 Hnd2.
    apply NoDup_Permutation; [done| |].
    + apply NoDup_app. split_and!; [done| |done].
      intros b Hb Hb2. apply (in_sync_key _ _ b H1) in Hb.
      apply (in_sync_has _ _ b H2) in Hb2. by rewrite (Hd b Hb) in Hb2.
    + intros b. by rewrite Hboth, elem_of_app.
Qed.

End Product.

Lemma in_sync_fold (names : list string) :
  in_sync names (foldl (λ m k, <[k := true]> m) (∅ : gmap string bool) names).
Proof. intros b. by rewrite fold_true_lookup, lookup_empty. Qed.

Lemma pair_maps_in_sync :
  in_sync ["a"] (map_at pair_maps 0) ∧ in_sync ["b"] (map_at pair_maps 1).
Proof. split; [apply (in_sync_fold ["a"])|apply (in_sync_fold ["b"])]. Qed.

Lemma DotProduct_spec_witness :
  ∃ t' h', DotProduct canonical other_table one_table pair_maps = (None, (t', h'))
           ∧ NumRows t' = 2
           ∧ data t' !! 1 = Some (row [("a", text "2"); ("b", text "3")]).
Proof.
  destruct pair_maps_in_sync as [Ha Hb].
  destruct (DotProduct_spec canonical other_table one_table pair_maps) as (Hok & _ & Hsync).
  destruct (Hsync Ha Hb) as [Hlists _].
  destruct Hok as (t' & h' & Hrun & Hn & Hrow & _).
  - apply (proj2 Hlists).
    intros b Hin%list_elem_of_singleton Hin'%list_elem_of_singleton. by subst.
  - exists t', h'. split_and!; [done|done|].
    apply (Hrow 1 0 (row [("a", text "2")]) (row [("b", text "3")])); reflexivity.
Defined.

(** C5 as stated fails: the two binding lists have no name in common,
    yet the merge drops the cell that the row of the receiver holds
    under the undeclared name [x]. *)
Lemma DotProduct_discards_cell :
  Bindings left_table = ["a"] ∧ Bindings right_table = ["b"]
  ∧ data left_table = [row [("a", text "1"); ("x", text "left")]]
  ∧ data right_table = [row [("b", text "2"); ("x", text "right")]]
  ∧ ∃ t' h',
      DotProduct canonical right_table left_table pair_maps = (None, (t', h'))
      ∧ data t' = [row [("a", text "1"); ("b", text "2"); ("x", text "right")]].
Proof. split_and!; try reflexivity. by eexists _, _. Qed.

Lemma pair_tables_inv : table_inv one_table pair_maps ∧ table_inv other_table pair_maps.
Proof.
  destruct pair_maps_in_sync as [Ha Hb].
  split; (split; [apply NoDup_singleton|done]).
Qed.

Lemma DotProduct_bindings_witness :
  ∃ t' h', DotProduct canonical other_table one_table pair_maps = (None, (t', h'))
           ∧ Bindings t' ≡ₚ ["a"; "b"].
Proof.
  destruct pair_tables_inv as [[Hnda Ha] [Hndb Hb]].
  eassert (DotProduct canonical other_table one_table pair_maps = (None, (_, _))) as Hrun
    by reflexivity.
  destruct (DotProduct_bindings _ _ _ _ _ _ Hrun) as (_ & _ & _ & _ & _ & _ & Hsync).
  destruct (Hsync Ha Hb) as [_ Hperm].
  eexists _, _. split; [exact Hrun|]. by apply Hperm.
Defined.

(** C6 as stated fails: two runs on the same tables, which differ in
    the order Go ranges over the new map, leave different binding
    lists, and one of them is not the bindings of the receiver
    followed by those of the other table. *)
Lemma DotProduct_order_varies :
  Bindings one_table ++ Bindings other_table = ["a"; "b"]
  ∧ ∃ t' h' t'' h'',
      DotProduct canonical other_table one_table pair_maps = (None, (t', h'))
      ∧ DotProduct reversed other_table one_table pair_maps = (None, (t'', h''))
      ∧ Bindings t' = ["a"; "b"]
      ∧ Bindings t'' = ["b"; "a"].
Proof. split; [reflexivity|]. by eexists _, _, _, _. Qed.

(** ** Sorting *)

Section Sorting.
Context `{E : External}.

Lemma Swap_adjacent_perm (rows : list Row) :
  ∀ j, Swap rows (S j) j ≡ₚ rows.
Proof.
  unfold Swap. induction rows as [|a rows IH]; intros j; [done|].
  destruct j as [|j]; cbn.
  - destruct rows as [|b rows]; [done|]. cbn. apply perm_swap.
  - specialize (IH j). destruct (rows !! S j) as [ri|]; [|done].
    destruct (rows !! j) as [rj|]; [|done]. by apply perm_skip.
Qed.

Lemma insertion_inner_perm (cfg : SortConfig) :
  ∀ j rows rows', insertion_inner cfg j rows = Ret rows' → rows' ≡ₚ rows.
Proof.
  induction j as [|j IH]; intros rows rows' Hrun; cbn in Hrun.
  - by injection Hrun as <-.
  - destruct (Less cfg rows (S j) j) as [[]| |]; cbn in Hrun; try done.
    + apply IH in Hrun. by rewrite Hrun, Swap_adjacent_perm.
    + by injection Hrun as <-.
Qed.

Lemma insertion_outer_perm (cfg : SortConfig) :
  ∀ k i rows rows', insertion_outer cfg k i rows = Ret rows' → rows' ≡ₚ rows.
Proof.
  induction k as [|k IH]; intros i rows rows' Hrun; cbn in Hrun.
  - by injection Hrun as <-.
  - destruct (insertion_inner cfg i rows) as [rows1| |] eqn:Hinner; cbn in Hrun; try done.
    apply IH in Hrun. apply insertion_inner_perm in Hinner. by rewrite Hrun.
Qed.

(** A [Sort] that returns leaves the bindings alone and permutes the rows. *)
Lemma Sort_perm (cfg : SortConfig) (t t' : Table) :
  Sort cfg t = Ret t' → bs t' = bs t ∧ mbs t' = mbs t ∧ data t' ≡ₚ data t.
Proof.
  unfold Sort, sort_Sort. destruct cfg as [c|].
  - destruct (insertion_outer _ _ _ _) as [rows| |] eqn:Hrun; cbn; try done.
    intros [= <-]. cbn. split_and!; try done. by apply insertion_outer_perm in Hrun.
  - by intros [= <-].
Qed.

Lemma Swap_lookup_other (rows : list Row) (i j p : nat) :
  p ≠ i → p ≠ j → Swap rows i j !! p = rows !! p.
Proof.
  intros Hi Hj. unfold Swap.
  destruct (rows !! i) as [ri|]; [|done]. destruct (rows !! j) as [rj|]; [|done].
  by rewrite !list_lookup_insert_ne.
Qed.

(** A comparison that returns has found the binding of the first
    entry in both rows. *)
Lemma Less_Ret_carries (cfg : SortEntry) (rest : list SortEntry) (rows : list Row)
    (i j : nat) (v : bool) :
  Less (Some (cfg :: rest)) rows i j = Ret v →
  ∃ ri rj, rows !! i = Some ri ∧ rows !! j = Some rj
           ∧ is_Some (ri !! Binding cfg) ∧ is_Some (rj !! Binding cfg).
Proof.
  unfold Less. destruct (rows !! i) as [ri|]; [|done].
  destruct (rows !! j) as [rj|]; [|done]. cbn [rowLess rowLess_entries].
  destruct (ri !! Binding cfg) as [ci|] eqn:Hci; [|done].
  destruct (rj !! Binding cfg) as [cj|] eqn:Hcj; [|done].
  intros _. exists ri, rj. split_and!; [done|done|by eexists|by eexists].
Qed.

Lemma insertion_inner_above (c : SortConfig) :
  ∀ j rows rows', insertion_inner c j rows = Ret rows' →
    ∀ p, j < p → rows' !! p = rows !! p.
Proof.
  induction j as [|j IH]; intros rows rows' Hrun p Hp; cbn in Hrun.
  - by injection Hrun as <-.
  - destruct (Less c rows (S j) j) as [[]| |]; cbn in Hrun; try done.
    + rewrite (IH _ _ Hrun) by lia. apply Swap_lookup_other; lia.
    + by injection Hrun as <-.
Qed.

(** The rows met by the rounds of a sort that returns all carry the
    binding of the first entry. *)
Lemma insertion_outer_carries (cfg : SortEntry) (rest : list SortEntry) :
  ∀ k i rows rows',
    insertion_outer (Some (cfg :: rest)) k (S i) rows = Ret rows' →
    ∀ p r, (i ≤ p < S i + k)%nat → 0 < k → rows !! p = Some r →
      is_Some (r !! Binding cfg).
Proof.
  induction k as [|k IH]; intros i rows rows' Hrun p r Hp Hk Hr; [lia|].
  cbn [insertion_outer insertion_inner] in Hrun.
  destruct (Less (Some (cfg :: rest)) rows (S i) i) as [v| |] eqn:Hless;
    cbn [mbind outcome_bind] in Hrun; try done.
  apply Less_Ret_carries in Hless as Hc.
  destruct Hc as (ri & rj & Hri & Hrj & Hci & Hcj).
  destruct (decide (p = i)) as [->|Hne]; [by simplify_eq|].
  destruct (decide (p = S i)) as [->|Hne']; [by simplify_eq|].
  destruct (insertion_inner (Some (cfg :: rest)) (S i) rows) as [rows1| |] eqn:Hinner.
  - cbn [insertion_inner] in Hinner. rewrite Hless in Hinner.
    cbn [mbind outcome_bind] in Hinner, Hrun. rewrite Hinner in Hrun.
    cbn [mbind outcome_bind] in Hrun.
    apply (IH (S i) rows1 rows' Hrun p r); [lia|lia|].
    assert (insertion_inner (Some (cfg :: rest)) (S i) rows = Ret rows1) as Hinner'.
    { cbn [insertion_inner]. by rewrite Hless. }
    rewrite (insertion_inner_above _ _ _ _ Hinner') by lia. done.
  - cbn [insertion_inner] in Hinner. rewrite Hless in Hinner.
    cbn [mbind outcome_bind] in Hinner, Hrun. by rewrite Hinner in Hrun.
  - cbn [insertion_inner] in Hinner. rewrite Hless in Hinner.
    cbn [mbind outcome_bind] in Hinner, Hrun. by rewrite Hinner in Hrun.
Qed.

(** A row has no nil cell. *)
Lemma both_set_returns {A : Type} (xi : option A) (cj : Cell) (X : Cell → option A)
    (render : A → string) (cur : string * string) :
  ∃ s, both_set xi (Some cj) X render cur = Ret s.
Proof. unfold both_set. destruct xi; [destruct (X cj)|]; by eexists. Qed.

Lemma rowLess_entries_no_Panic (ri rj : Row) :
  (∀ b, ri !! b ≠ Some None) → (∀ b, rj !! b ≠ Some None) →
  ∀ c, c ≠ [] → rowLess_entries ri rj c ≠ Panic.
Proof.
  intros Hi Hj. induction c as [|cfg rest IH]; intros Hne; [done|].
  cbn [rowLess_entries].
  destruct (ri !! Binding cfg) as [[ci|]|] eqn:Hci; [|by destruct (Hi (Binding cfg))|done].
  destruct (rj !! Binding cfg) as [[cj|]|] eqn:Hcj; [|by destruct (Hj (Binding cfg))|done].
  destruct (both_set_returns (Cell_S ci) cj Cell_S id ("", "")) as [s1 ->].
  cbn [mbind outcome_bind].
  destruct (both_set_returns (Cell_N ci) cj Cell_N node_String s1) as [s2 ->].
  cbn [mbind outcome_bind].
  destruct (both_set_returns (Cell_P ci) cj Cell_P predicate_String s2) as [s3 ->].
  cbn [mbind outcome_bind].
  destruct (both_set_returns (Cell_L ci) cj Cell_L literal_ToComparableString s3) as [s4 ->].
  cbn [mbind outcome_bind].
  destruct (both_set_returns (Cell_T ci) cj Cell_T time_Format_RFC3339Nano s4) as [s5 ->].
  cbn [mbind outcome_bind].
  destruct (_ <? 0)%Z; [done|]. destruct (0 <? _)%Z; [done|]. cbn [orb].
  case_bool_decide; [done|]. by apply IH.
Qed.

Lemma insertion_inner_no_Panic (c : list SortEntry) :
  c ≠ [] →
  ∀ j rows, Forall (λ r : Row, ∀ b, r !! b ≠ Some None) rows → j < List.length rows →
    insertion_inner (Some c) j rows ≠ Panic.
Proof.
  intros Hc. induction j as [|j IH]; intros rows Hrows Hj; [done|].
  cbn [insertion_inner]. unfold Less.
  destruct (lookup_lt_is_Some_2 rows (S j) Hj) as [ri Hri].
  destruct (lookup_lt_is_Some_2 rows j ltac:(lia)) as [rj Hrj].
  rewrite Hri, Hrj. cbn [rowLess].
  pose proof (rowLess_entries_no_Panic ri rj
                (proj1 (Forall_lookup _ _) Hrows _ _ Hri)
                (proj1 (Forall_lookup _ _) Hrows _ _ Hrj) c Hc) as Hless.
  destruct (rowLess_entries ri rj c) as [[]| |]; cbn [mbind outcome_bind]; try done.
  apply IH.
  - by rewrite Swap_adjacent_perm.
  - rewrite (Permutation_length (Swap_adjacent_perm rows j)). lia.
Qed.

Lemma insertion_outer_no_Panic (c : list SortEntry) :
  c ≠ [] →
  ∀ k i rows, Forall (λ r : Row, ∀ b, r !! b ≠ Some None) rows →
    (i + k ≤ List.length rows)%nat → insertion_outer (Some c) k i rows ≠ Panic.
Proof.
  intros Hc. induction k as [|k IH]; intros i rows Hrows Hik; [done|].
  cbn [insertion_outer].
  pose proof (insertion_inner_no_Panic c Hc i rows Hrows ltac:(lia)) as Hinner.
  destruct (insertion_inner (Some c) i rows) as [rows1| |] eqn:Hrun;
    cbn [mbind outcome_bind]; try done.
  apply insertion_inner_perm in Hrun. apply IH.
  - by rewrite Hrun.
  - rewrite (Permutation_length Hrun). lia.
Qed.

(** C1, as the code has it.  A row that has no cell for the binding of
    the entry [rowLess] looks at makes it end the process
    ([log.Fatalf]), whichever side the row is on; no error is
    returned.  So a [Sort] of a table of two to six rows, one of which
    lacks the first binding of the configuration, does not return,
    and neither does a [Reduce] whose validation passed; when no row
    holds a nil cell they end by the [log.Fatalf] of [rowLess]. *)
Theorem missing_binding_aborts (t : Table) (cfg : SortEntry) (rest : list SortEntry)
    (r : Row) :
  r ∈ data t → r !! Binding cfg = None → (2 ≤ NumRows t ≤ 6)%nat →
  (∀ r', rowLess r r' (Some (cfg :: rest)) = Fatal
         ∧ rowLess r' r (Some (cfg :: rest)) = Fatal)
  ∧ (∀ t', Sort (Some (cfg :: rest)) t ≠ Ret t')
  ∧ ((∀ r' b, r' ∈ data t → r' !! b ≠ Some None) → Sort (Some (cfg :: rest)) t = Fatal)
  ∧ (∀ (ord : RangeOrder) (aaps : list AliasAccPair) (h : list (gmap string bool))
       (σ : list AccState),
       Reduce_validate ord t h (toMap aaps) = None →
       (∀ res, Reduce ord (Some (cfg :: rest)) aaps t h σ ≠ Ret res)
       ∧ ((∀ r' b, r' ∈ data t → r' !! b ≠ Some None) →
          Reduce ord (Some (cfg :: rest)) aaps t h σ = Fatal)).
Proof.
  intros Hin Hmiss [Hn _]. unfold NumRows in Hn.
  assert (∀ t', Sort (Some (cfg :: rest)) t ≠ Ret t') as Hnoret.
  { intros t' Hsort. unfold Sort, sort_Sort in Hsort.
    destruct (insertion_outer _ _ _ _) as [rows'| |] eqn:Hrun; try done.
    apply list_elem_of_lookup in Hin as [p Hp].
    replace (List.length (data t) - 1) with (S (List.length (data t) - 2)) in Hrun by lia.
    destruct (decide (p = 0)) as [->|Hp0].
    - cbn [insertion_outer insertion_inner] in Hrun.
      destruct (Less (Some (cfg :: rest)) (data t) 1 0) as [v| |] eqn:Hless; try done.
      apply Less_Ret_carries in Hless as (ri & rj & _ & Hrj & _ & [c Hc]).
      simplify_eq.
    - pose proof (lookup_lt_Some _ _ _ Hp) as Hlt.
      destruct (insertion_outer_carries cfg rest _ 0 _ _ Hrun p r) as [c Hc];
        [lia|lia|done|]. simplify_eq. }
  assert ((∀ r' b, r' ∈ data t → r' !! b ≠ Some None) →
          Sort (Some (cfg :: rest)) t = Fatal) as Hfatal.
  { intros Hnil. pose proof (Hnoret) as Hnoret'. unfold Sort, sort_Sort in *.
    pose proof (insertion_outer_no_Panic (cfg :: rest) ltac:(done)
                  (List.length (data t) - 1) 1 (data t)) as Hnp.
    destruct (insertion_outer _ _ _ _) as [rows'| |]; cbn [mbind outcome_bind] in *.
    - by destruct (Hnoret' (with_data t rows')).
    - done.
    - destruct Hnp; [|lia|done]. apply Forall_forall. intros r' Hr' b. by apply Hnil. }
  split_and!; try done.
  - intros r'. split; cbn [rowLess]; apply rowLess_entries_missing; [by left|by right].
  - intros ord aaps h σ Hvalid. unfold Reduce. rewrite Hvalid.
    rewrite bool_decide_false by (unfold NumRows; lia). split.
    + intros res. specialize (Hnoret). destruct (Sort (Some (cfg :: rest)) t) as [ts| |].
      * by destruct (Hnoret ts).
      * done.
      * done.
    + intros Hnil. by rewrite (Hfatal Hnil).
Qed.

End Sorting.

Lemma row_no_nil (l : list (string * option (@Cell sample))) :
  Forall (λ kv, is_Some kv.2) l → ∀ b, row l !! b ≠ Some None.
Proof.
  intros Hl b Hb. apply elem_of_list_to_map_2 in Hb.
  apply (proj1 (Forall_forall _ _) Hl) in Hb. by destruct Hb.
Qed.

Lemma missing_binding_aborts_witness :
  Sort by_g sparse_table = Fatal
  ∧ Reduce canonical by_g sparse_pairs sparse_table sparse_maps
      [NewCountAccumulator (E := sample)] = Fatal.
Proof.
  assert (∀ r' b, r' ∈ data sparse_table → r' !! b ≠ Some None) as Hnil.
  { intros r' b Hr'. apply elem_of_cons in Hr' as [->|Hr'].
    - apply row_no_nil. repeat constructor; by eexists.
    - apply list_elem_of_singleton in Hr' as ->.
      apply row_no_nil. repeat constructor; by eexists. }
  destruct (missing_binding_aborts sparse_table {| Binding := "g"; Desc := false |} []
              (row [("v", text "a")])) as (_ & _ & Hsort & Hred).
  - apply elem_of_cons. right. by apply list_elem_of_singleton.
  - reflexivity.
  - replace (NumRows sparse_table) with 2 by reflexivity. lia.
  - split; [by apply Hsort|].
    destruct (Hred canonical sparse_pairs sparse_maps [NewCountAccumulator (E := sample)])
      as [_ H]; [reflexivity|]. by apply H.
Defined.

(** C1 as stated fails: the second row of the table has no cell for
    [g]; the reduction configuration is a valid one, and both [Sort]
    and [Reduce] end the process instead of returning an error. *)
Lemma missing_binding_ends_process :
  data sparse_table !! 1 = Some (row [("v", text "a")])
  ∧ row [("v", text "a")] !! "g" = None
  ∧ Reduce_validate canonical sparse_table sparse_maps (toMap sparse_pairs) = None
  ∧ Sort by_g sparse_table = Fatal
  ∧ Reduce canonical by_g sparse_pairs sparse_table sparse_maps [NewCountAccumulator (E := sample)]
    = Fatal.
Proof. split_and!; reflexivity. Qed.

(** ** Reduction *)

Section Reduction.
Context `{E : External}.

(** C2, as the code has it.  When the input validation of [Reduce]
    fails, the error is returned and the table, the store of maps and
    the accumulators are as before the call, whatever the number of
    rows: nothing is sorted before the validation.  When [Reduce]
    returns an error after the validation (from the folding of a
    group), on a table of at most six rows (the rows up to which
    [sort.Sort] is the insertion sort of [sort_Sort]), the store of
    maps and the bindings of the table are as before, and the rows are
    the rows the table had, as [Sort] left them: a permutation of the
    rows before the call, not always in their order. *)
Theorem Reduce_error_state (ord : RangeOrder) (cfg : SortConfig) (aaps : list AliasAccPair)
    (t : Table) (h : list (gmap string bool)) (σ : list AccState) :
  (∀ err, Reduce_validate ord t h (toMap aaps) = Some err →
     Reduce ord cfg aaps t h σ = Ret (Some err, t, h, σ))
  ∧ ((NumRows t ≤ 6)%nat →
     ∀ err t' h' σ',
       Reduce ord cfg aaps t h σ = Ret (Some err, t', h', σ') →
       h' = h ∧ bs t' = bs t ∧ mbs t' = mbs t ∧ data t' ≡ₚ data t
       ∧ (Reduce_validate ord t h (toMap aaps) = None → Sort cfg t = Ret t')).
Proof.
  unfold Reduce. split.
  - by intros err ->.
  - intros _ err t' h' σ'.
    destruct (Reduce_validate ord t h (toMap aaps)) as [e|] eqn:Hval.
    { intros [= <- <- <- <-]. by split_and!. }
    case_bool_decide; [done|].
    destruct (Sort cfg t) as [ts| |] eqn:Hsort; cbn [mbind outcome_bind]; try done.
    apply Sort_perm in Hsort as Hperm. destruct Hperm as (Hbs & Hmbs & Hperm).
    destruct (reduce_loop _ _ _ _ _ _ _ _ _ _) as [[[e σ1]|[[lastIdx newData] σ1]]| |];
      cbn [mbind outcome_bind]; try done.
    { intros [= <- <- <- <-]. by split_and!. }
    destruct (fullGroupRangeReduce _ _ _ _ _ _) as [[[nr|e] σ2]| |];
      cbn [mbind outcome_bind]; try done.
    { by destruct (reduce_bindings aaps). }
    intros [= <- <- <- <-]. by split_and!.
Qed.

(** The sums of the file cannot be fed a cell: their type assertion
    panics. *)
Lemma sum_Accumulate_cell (a : AccState) (c : option Cell) :
  (∃ init st, a = sumInt64 init st) ∨ (∃ init st, a = sumFloat64 init st) →
  Accumulate a (V_Cell c) = Panic.
Proof. by intros [(init & st & ->)|(init & st & ->)]. Qed.

End Reduction.

Lemma Reduce_error_state_witness :
  ∃ t', Reduce canonical by_g stray_pairs stray_table stray_maps []
          = Ret (Some ErrEmptyReducedRow, t', stray_maps, [])
        ∧ data t' ≡ₚ data stray_table
        ∧ Sort by_g stray_table = Ret t'.
Proof.
  destruct (Reduce_error_state canonical by_g stray_pairs stray_table stray_maps [])
    as [_ H].
  eexists. split; [reflexivity|].
  edestruct H as (_ & _ & _ & Hperm & Hsort); [vm_compute; lia|reflexivity|].
  split; [exact Hperm|]. apply Hsort. reflexivity.
Defined.

(** C2 as stated fails: the rows carry every binding, the
    configuration is valid, the accumulator returns an error on the
    first group, [Reduce] returns that error, and the rows of the table
    are left in sorted order, which is not the order they had. *)
Lemma Reduce_error_leaves_rows_sorted :
  data unsorted_table =
    [row [("g", text "b"); ("v", text "x")]; row [("g", text "a"); ("v", text "y")]]
  ∧ Reduce_validate canonical unsorted_table sparse_maps (toMap sparse_pairs) = None
  ∧ (∃ σ',
       Reduce canonical by_g sparse_pairs unsorted_table sparse_maps [rejecting]
       = Ret (Some (ErrLiteral "rejected"),
              with_data unsorted_table
                [row [("g", text "a"); ("v", text "y")]; row [("g", text "b"); ("v", text "x")]],
              sparse_maps, σ'))
  ∧ with_data unsorted_table
      [row [("g", text "a"); ("v", text "y")]; row [("g", text "b"); ("v", text "x")]]
    ≠ unsorted_table.
Proof.
  split_and!; try reflexivity.
  - by eexists.
  - intros Heq. apply (f_equal (λ t, data t ≫= λ r, [r !! "g"])) in Heq.
    vm_compute in Heq. congruence.
Qed.

(** C3 on the code: the reduction of the example hands the cells of
    [val] to the integer sum, whose type assertion panics; with the
    accumulator that counts in its place the same call returns one row
    for each group, in the order the groups are met, with the cell of
    [g] taken from the first row of the group. *)
Lemma Reduce_sum_example_panics :
  data groups_table =
    [row [("g", lit 1); ("val", lit 3)]; row [("g", lit 1); ("val", lit 4)];
     row [("g", lit 2); ("val", lit 5)]]
  ∧ New ["g"; "val"] [] = inl (with_data groups_table [], groups_maps)
  ∧ Reduce canonical by_g groups_pairs groups_table groups_maps
      [NewSumInt64LiteralAccumulator (E := sample) 0] = Panic
  ∧ Reduce reversed by_g groups_pairs groups_table groups_maps
      [NewSumInt64LiteralAccumulator (E := sample) 0] = Panic
  ∧ feed (NewSumInt64LiteralAccumulator (E := sample) 0)
      [V_Literal (3%Z : @Literal sample); V_Literal (4%Z : @Literal sample)]
    = [Ret (A_int64 3, None); Ret (A_int64 7, None)]
  ∧ ∃ h', Reduce canonical by_g groups_pairs groups_table groups_maps
            [NewCountAccumulator (E := sample)]
          = Ret (None,
                 {| bs := ["g"; "total"]; mbs := 1;
                    data := [row [("g", lit 1); ("total", lit 2)];
                             row [("g", lit 2); ("total", lit 1)]] |},
                 h', [countAcc 1]).
Proof. split_and!; try reflexivity. by eexists. Qed.

Section ReducedBindings.
Context `{E : External}.

Lemma reduce_bindings_step (aaps : list AliasAccPair) :
  ∀ (names : list string) (m : gmap string bool),
    NoDup names → in_sync names m →
    let '(names', m') :=
      foldl (λ '(names, m) aap,
               (if has m (OutAlias aap) then names else names ++ [OutAlias aap],
                <[OutAlias aap := true]> m))
            (names, m) aaps in
    NoDup names' ∧ in_sync names' m'.
Proof.
  induction aaps as [|aap aaps IH]; intros names m Hnd Hs; cbn [foldl]; [done|].
  rewrite (has_in_sync _ _ _ Hs). case_bool_decide as Hin.
  - apply IH; [done|]. intros b. destruct (decide (OutAlias aap = b)) as [<-|Hne].
    + rewrite lookup_insert_eq. by rewrite bool_decide_true.
    + rewrite lookup_insert_ne by done. apply Hs.
  - apply IH.
    + apply NoDup_app. split_and!; [done| |apply NoDup_singleton].
      intros b Hb ->%list_elem_of_singleton. done.
    + by apply in_sync_snoc.
Qed.

(** A [Reduce] that returns no error on a table that satisfies the
    invariant leaves a table that satisfies it. *)
Lemma Reduce_inv (ord : RangeOrder) (cfg : SortConfig) (aaps : list AliasAccPair)
    (t t' : Table) (h h' : list (gmap string bool)) (σ σ' : list AccState) :
  Reduce ord cfg aaps t h σ = Ret (None, t', h', σ') →
  table_inv t h → table_inv t' h'.
Proof.
  unfold Reduce. intros Hrun Hinv.
  destruct (Reduce_validate ord t h (toMap aaps)); [done|].
  case_bool_decide; [by injection Hrun as <- <- <-|].
  destruct (Sort cfg t) as [ts| |]; cbn [mbind outcome_bind] in Hrun; try done.
  destruct (reduce_loop _ _ _ _ _ _ _ _ _ _) as [[[e σ1]|[[lastIdx newData] σ1]]| |];
    cbn [mbind outcome_bind] in Hrun; try done.
  destruct (fullGroupRangeReduce _ _ _ _ _ _) as [[[nr|e] σ2]| |];
    cbn [mbind outcome_bind] in Hrun; try done.
  pose proof (reduce_bindings_step aaps [] ∅ (NoDup_nil_2 (A := string))) as Hb.
  unfold reduce_bindings in Hrun. destruct (foldl _ _ aaps) as [names m].
  injection Hrun as <- <- <-. destruct Hb as [Hnd Hs].
  { intros b. by rewrite lookup_empty, bool_decide_false by apply not_elem_of_nil. }
  split; cbn; [done|]. by rewrite map_at_app_new.
Qed.

End ReducedBindings.

(** The loop of [Reduce] takes the empty string for the group key of
    no row yet: a group whose key renders as the empty string is never
    reduced, and its rows are lost. *)
Lemma Reduce_drops_empty_key_group :
  ∃ h', Reduce canonical by_g sparse_pairs blank_table sparse_maps
          [NewCountAccumulator (E := sample)]
        = Ret (None,
               {| bs := ["g"; "n"]; mbs := 1;
                  data := [row [("g", text "a"); ("n", lit 1)]] |},
               h', [countAcc 1]).
Proof. by eexists. Qed.

(** * Further properties *)

(** ** The comparison of strings and of rows *)

Lemma string_ltb_flip (a b : string) : a ≠ b → String.ltb b a = negb (String.ltb a b).
Proof.
  intros Hne. unfold String.ltb. rewrite (String.compare_antisym a b).
  destruct (String.compare b a) eqn:Hc; cbn; try done.
  apply String.compare_eq_iff in Hc. by subst.
Qed.

(** X1: [stringLess] answers -1, 0 or 1; it answers 0 exactly when the
    two strings are the same once trimmed of white space; exchanging
    the strings, or asking for the descending order, negates the
    answer. *)
Theorem stringLess_spec (a b : string) (desc : bool) :
  (stringLess a b desc = (-1)%Z ∨ stringLess a b desc = 0%Z ∨ stringLess a b desc = 1%Z)
  ∧ (stringLess a b desc = 0%Z ↔ TrimSpace a = TrimSpace b)
  ∧ stringLess b a desc = (- stringLess a b desc)%Z
  ∧ stringLess a b (negb desc) = (- stringLess a b desc)%Z.
Proof.
  unfold stringLess.
  destruct (decide (TrimSpace a = TrimSpace b)) as [Heq|Hne].
  - rewrite Heq, !String.eqb_refl, !orb_true_r. by split_and!; [right; left| | |].
  - assert (String.eqb (TrimSpace a) (TrimSpace b) = false) as Hab
      by (by apply String.eqb_neq).
    assert (String.eqb (TrimSpace b) (TrimSpace a) = false) as Hba
      by (apply String.eqb_neq; congruence).
    assert (String.eqb (TrimSpace a) "" && String.eqb (TrimSpace b) "" = false) as Hee.
    { apply andb_false_iff. destruct (String.eqb_spec (TrimSpace a) "") as [Ha|]; [|by left].
      right. apply String.eqb_neq. congruence. }
    rewrite (andb_comm (String.eqb (TrimSpace b) "")), Hee, Hab, Hba. cbn [orb].
    rewrite (string_ltb_flip (TrimSpace a) (TrimSpace b)) by done.
    destruct (String.ltb (TrimSpace a) (TrimSpace b)), desc; cbn;
      split_and!; try tauto; try done; split; (done || lia).
Qed.

Section Asymmetry.
Context `{E : External}.

Lemma both_set_flip {A : Type} (ci cj : Cell) (X : Cell → option A) (render : A → string)
    (s1 s2 : string) :
  ∃ p, both_set (X ci) (Some cj) X render (s1, s2) = Ret p
       ∧ both_set (X cj) (Some ci) X render (s2, s1) = Ret (p.2, p.1).
Proof. unfold both_set. destruct (X ci), (X cj); by eexists. Qed.

Lemma rowLess_entries_asymmetric (ri rj : Row) :
  no_nil_cell ri → no_nil_cell rj →
  ∀ c, rowLess_entries ri rj c = Ret true → rowLess_entries rj ri c = Ret false.
Proof.
  intros Hi Hj. induction c as [|cfg rest IH]; [done|]. cbn [rowLess_entries].
  destruct (ri !! Binding cfg) as [[ci|]|] eqn:Hci; [|by destruct (Hi (Binding cfg))|done].
  destruct (rj !! Binding cfg) as [[cj|]|] eqn:Hcj; [|by destruct (Hj (Binding cfg))|done].
  destruct (both_set_flip ci cj Cell_S id "" "") as ([a1 b1] & -> & ->).
  cbn [mbind outcome_bind fst snd].
  destruct (both_set_flip ci cj Cell_N node_String a1 b1) as ([a2 b2] & -> & ->).
  cbn [mbind outcome_bind fst snd].
  destruct (both_set_flip ci cj Cell_P predicate_String a2 b2) as ([a3 b3] & -> & ->).
  cbn [mbind outcome_bind fst snd].
  destruct (both_set_flip ci cj Cell_L literal_ToComparableString a3 b3) as ([a4 b4] & -> & ->).
  cbn [mbind outcome_bind fst snd].
  destruct (both_set_flip ci cj Cell_T time_Format_RFC3339Nano a4 b4) as ([a5 b5] & -> & ->).
  cbn [mbind outcome_bind fst snd].
  destruct (stringLess_spec a5 b5 (Desc cfg)) as (Hval & _ & -> & _).
  destruct Hval as [-> | [-> | ->]]; cbn; [done| |done].
  case_bool_decide; [done|]. apply IH.
Qed.

Lemma rowLess_flip (ri rj : Row) (c : SortConfig) :
  no_nil_cell ri → no_nil_cell rj →
  rowLess ri rj c = Ret true → rowLess rj ri c = Ret false.
Proof.
  intros Hi Hj. destruct c as [c|]; cbn [rowLess]; [|done].
  by apply rowLess_entries_asymmetric.
Qed.

(** X2: on rows that hold no nil cell [rowLess] is asymmetric: when it
    answers that a row is less than another, it answers that the other
    is not less than the first; and no row is less than itself. *)
Theorem rowLess_asymmetric (ri rj : Row) (c : SortConfig) :
  no_nil_cell ri → no_nil_cell rj →
  (rowLess ri rj c = Ret true → rowLess rj ri c = Ret false)
  ∧ rowLess ri ri c ≠ Ret true.
Proof.
  intros Hi Hj. destruct c as [c|]; cbn [rowLess]; [|done]. split.
  - by apply rowLess_entries_asymmetric.
  - intros Ht. pose proof (rowLess_entries_asymmetric ri ri Hi Hi c Ht). congruence.
Qed.

End Asymmetry.

Lemma rowLess_asymmetric_witness :
  rowLess (row [("g", text "a")]) (row [("g", text "b")]) by_g = Ret true
  ∧ rowLess (row [("g", text "b")]) (row [("g", text "a")]) by_g = Ret false.
Proof.
  assert (∀ s, no_nil_cell (row [("g", text s)])) as Hnil.
  { intros s b. apply row_no_nil. repeat constructor. by eexists. }
  split; [reflexivity|].
  apply (rowLess_asymmetric _ _ by_g (Hnil "a") (Hnil "b")). reflexivity.
Defined.

(** ** What a sort leaves *)

Section Sorted.
Context `{E : External}.

Lemma Swap_cons (p : Row) (rows : list Row) (i j : nat) :
  Swap (p :: rows) (S i) (S j) = p :: Swap rows i j.
Proof.
  unfold Swap. cbn. destruct (rows !! i); [|done]. by destruct (rows !! j).
Qed.

Lemma Swap_middle (pre : list Row) (a x : Row) (rest : list Row) :
  Swap (pre ++ a :: x :: rest) (S (List.length pre)) (List.length pre)
  = pre ++ x :: a :: rest.
Proof.
  induction pre as [|p pre IH]; [done|]. cbn [List.length app].
  by rewrite Swap_cons, IH.
Qed.

Lemma Less_middle (cfg : SortConfig) (pre : list Row) (a x : Row) (rest : list Row) :
  Less cfg (pre ++ a :: x :: rest) (S (List.length pre)) (List.length pre)
  = rowLess x a cfg.
Proof.
  assert ((pre ++ a :: x :: rest) !! List.length pre = Some a) as Ha
    by by apply list_lookup_middle.
  assert ((pre ++ a :: x :: rest) !! S (List.length pre) = Some x) as Hx.
  { replace (pre ++ a :: x :: rest) with ((pre ++ [a]) ++ x :: rest)
      by by rewrite <- app_assoc.
    apply list_lookup_middle. rewrite length_app. cbn. lia. }
  unfold Less. by rewrite Ha, Hx.
Qed.

Lemma Sorted_insert_after (R : relation Row) (l1 : list Row) (a x : Row) (l2 : list Row) :
  Sorted R ((l1 ++ [a]) ++ l2) → R a x → HdRel R x l2 →
  Sorted R ((l1 ++ [a]) ++ x :: l2).
Proof.
  intros Hs Hax Hx. induction l1 as [|b l1 IH]; cbn in *.
  - apply Sorted_inv in Hs as [Hs _]. by repeat constructor.
  - apply Sorted_inv in Hs as [Hs Hb]. constructor; [by apply IH|].
    destruct l1; cbn in *; apply HdRel_inv in Hb; by constructor.
Qed.

Lemma Sorted_adjacent (R : relation Row) (l : list Row) :
  Sorted R l → ∀ j a x, l !! j = Some a → l !! S j = Some x → R a x.
Proof.
  induction 1 as [|b l Hs IH Hb]; intros j a x Ha Hx; [done|].
  destruct j as [|j]; cbn in Ha, Hx.
  - injection Ha as <-. destruct l as [|c l]; [done|]. cbn in Hx. injection Hx as <-.
    by apply HdRel_inv in Hb.
  - by apply (IH j).
Qed.

Lemma insertion_inner_sorted (cfg : SortConfig) :
  ∀ pre x post rest rows',
    Forall no_nil_cell (pre ++ [x]) →
    Sorted (not_before cfg) (pre ++ post) → HdRel (not_before cfg) x post →
    insertion_inner cfg (List.length pre) (pre ++ x :: post ++ rest) = Ret rows' →
    ∃ pre1 pre2, pre = pre1 ++ pre2 ∧ rows' = pre1 ++ x :: pre2 ++ post ++ rest
                 ∧ Sorted (not_before cfg) (pre1 ++ x :: pre2 ++ post).
Proof.
  induction pre as [|a pre IH] using rev_ind; intros x post rest rows' Hnil Hs Hx Hrun.
  - cbn in Hrun. injection Hrun as <-. exists [], []. split_and!; try done.
    by constructor.
  - rewrite length_app in Hrun. cbn [List.length] in Hrun. rewrite Nat.add_1_r in Hrun.
    cbn [insertion_inner] in Hrun. rewrite <- app_assoc in Hrun. cbn [app] in Hrun.
    rewrite Less_middle in Hrun.
    apply Forall_app in Hnil as [Hnil Hnx]. apply Forall_app in Hnil as [Hnil Hna].
    pose proof (Forall_inv Hnx) as Hx'. pose proof (Forall_inv Hna) as Ha'.
    destruct (rowLess x a cfg) as [[]| |] eqn:Hless; cbn [mbind outcome_bind] in Hrun;
      try done.
    + rewrite Swap_middle in Hrun.
      destruct (IH x (a :: post) rest rows') as (pre1 & pre2 & -> & -> & Hsorted).
      * by apply Forall_app.
      * by rewrite <- app_assoc in Hs.
      * constructor. by apply (rowLess_flip x a cfg).
      * done.
      * exists pre1, (pre2 ++ [a]). split_and!.
        -- by rewrite app_assoc.
        -- by rewrite <- !app_assoc.
        -- by rewrite <- !app_assoc.
    + injection Hrun as <-. exists (pre ++ [a]), []. split_and!.
      * by rewrite app_nil_r.
      * by rewrite <- !app_assoc.
      * cbn [app]. by apply Sorted_insert_after.
Qed.

Lemma insertion_outer_sorted (cfg : SortConfig) :
  ∀ rest pre rows',
    Forall no_nil_cell (pre ++ rest) → Sorted (not_before cfg) pre →
    insertion_outer cfg (List.length rest) (List.length pre) (pre ++ rest) = Ret rows' →
    Sorted (not_before cfg) rows'.
Proof.
  induction rest as [|x rest IH]; intros pre rows' Hnil Hs Hrun.
  - cbn in Hrun. injection Hrun as <-. by rewrite app_nil_r.
  - cbn [List.length insertion_outer] in Hrun.
    destruct (insertion_inner cfg (List.length pre) (pre ++ x :: rest)) as [rows1| |]
      eqn:Hinner; cbn [mbind outcome_bind] in Hrun; try done.
    destruct (insertion_inner_sorted cfg pre x [] rest rows1)
      as (pre1 & pre2 & -> & -> & Hsorted).
    + apply Forall_app in Hnil as [Hp Hr]. apply Forall_cons in Hr as [Hx _].
      apply Forall_app. split; [done|]. by constructor.
    + by rewrite app_nil_r.
    + constructor.
    + done.
    + rewrite app_nil_r in Hsorted. cbn [app] in Hrun.
      apply (IH (pre1 ++ x :: pre2)); [|done|].
      * revert Hnil. rewrite ?Forall_app, ?Forall_cons, ?Forall_app. tauto.
      * rewrite <- app_assoc. cbn [app].
        replace (List.length (pre1 ++ x :: pre2)) with (S (List.length (pre1 ++ pre2)));
          [done|]. rewrite !length_app. cbn. lia.
Qed.

Lemma insertion_outer_sorted_id (cfg : SortConfig) (rows : list Row) :
  Sorted (not_before cfg) rows →
  ∀ k i, (S i + k ≤ List.length rows)%nat →
    insertion_outer cfg k (S i) rows = Ret rows.
Proof.
  intros Hs. induction k as [|k IH]; intros i Hik; [done|].
  cbn [insertion_outer insertion_inner]. unfold Less.
  destruct (lookup_lt_is_Some_2 rows (S i) ltac:(lia)) as [x Hx].
  destruct (lookup_lt_is_Some_2 rows i ltac:(lia)) as [a Ha].
  rewrite Hx, Ha.
  rewrite (Sorted_adjacent _ _ Hs i a x Ha Hx : rowLess x a cfg = Ret false).
  cbn [mbind outcome_bind]. apply IH. lia.
Qed.

(** X3: a [Sort] that returns, on a table of at most six rows that
    hold no nil cell, leaves the bindings as they were and the same
    rows in an order in which no row is less, for [rowLess], than the
    row before it. *)
Theorem Sort_sorted (cfg : SortConfig) (t t' : Table) :
  Sort cfg t = Ret t' → Forall no_nil_cell (data t) → (NumRows t ≤ 6)%nat →
  bs t' = bs t ∧ mbs t' = mbs t ∧ data t' ≡ₚ data t
  ∧ Sorted (not_before cfg) (data t').
Proof.
  intros Hsort Hnil _. destruct (Sort_perm cfg t t' Hsort) as (? & ? & ?).
  split_and!; try done. unfold Sort, sort_Sort in Hsort. destruct cfg as [c|].
  - destruct (insertion_outer _ _ _ _) as [rows'| |] eqn:Hrun;
      cbn [mbind outcome_bind] in Hsort; try done.
    injection Hsort as <-. cbn [data].
    destruct (data t) as [|r0 rest]; [cbn in Hrun; injection Hrun as <-; constructor|].
    replace (List.length (r0 :: rest) - 1) with (List.length rest) in Hrun by (cbn; lia).
    apply (insertion_outer_sorted (Some c) rest [r0] rows'); [done| |done].
    by repeat constructor.
  - injection Hsort as <-. clear. induction (data t) as [|r l IH]; [constructor|].
    constructor; [done|]. by destruct l; constructor.
Qed.

(** X4: on a table of at most six rows in which no row is less than
    the row before it, [Sort] returns the table as it is. *)
Theorem Sort_of_sorted (cfg : SortConfig) (t : Table) :
  Sorted (not_before cfg) (data t) → (NumRows t ≤ 6)%nat → Sort cfg t = Ret t.
Proof.
  intros Hs _. unfold Sort, sort_Sort. destruct t as [names m rows]. cbn [data] in *.
  destruct cfg as [c|]; [|done].
  destruct rows as [|r0 rest]; [done|].
  replace (List.length (r0 :: rest) - 1) with (List.length rest) by (cbn; lia).
  rewrite (insertion_outer_sorted_id (Some c) _ Hs) by (cbn; lia). done.
Qed.

(** X5: [Sort] compares nothing on a table of at most one row, or
    under the nil configuration: it returns the table as it is, also
    when a row lacks the bindings of the configuration. *)
Theorem Sort_nothing_to_compare (cfg : SortConfig) (t : Table) :
  (NumRows t ≤ 1)%nat ∨ cfg = None → Sort cfg t = Ret t.
Proof.
  unfold Sort, sort_Sort, NumRows. destruct t as [names m rows]. cbn [data].
  intros [Hn| ->]; [|done]. destruct cfg; [|done].
  destruct rows as [|r0 [|r1 rest]]; cbn in *; try done. lia.
Qed.

End Sorted.

Lemma sample_rows_no_nil :
  Forall no_nil_cell (data unsorted_table) ∧ Forall no_nil_cell (data groups_table).
Proof.
  split; repeat constructor; intros b; apply row_no_nil; repeat constructor; by eexists.
Qed.

Lemma Sort_sorted_witness :
  ∃ t', Sort by_g unsorted_table = Ret t'
        ∧ data t' ≡ₚ data unsorted_table
        ∧ Sorted (not_before by_g) (data t').
Proof.
  eexists. split; [reflexivity|].
  edestruct (Sort_sorted by_g unsorted_table) as (_ & _ & Hperm & Hsorted).
  - reflexivity.
  - apply sample_rows_no_nil.
  - replace (NumRows unsorted_table) with 2 by reflexivity. lia.
  - by split.
Defined.

Lemma Sort_of_sorted_witness : Sort by_g groups_table = Ret groups_table.
Proof.
  apply Sort_of_sorted.
  - repeat constructor; reflexivity.
  - replace (NumRows groups_table) with 3 by reflexivity. lia.
Defined.

Lemma Sort_nothing_to_compare_witness :
  row [("v", text "a")] !! "g" = None ∧ Sort by_g lone_table = Ret lone_table.
Proof.
  split; [reflexivity|]. apply Sort_nothing_to_compare. left.
  replace (NumRows lone_table) with 1 by reflexivity. lia.
Defined.

(** ** The validation of a reduction *)

Section Validation.
Context `{E : External}.

Lemma toMap_fold_is_Some (aaps : list AliasAccPair) :
  ∀ (m0 : gmap string (gmap string AliasAccPair)) (b : string),
    is_Some (foldl (λ resMap aap,
                      <[InAlias aap :=
                          <[OutAlias aap := aap]> (default ∅ (resMap !! InAlias aap))]> resMap)
                   m0 aaps !! b)
    ↔ is_Some (m0 !! b) ∨ b ∈ InAlias <$> aaps.
Proof.
  induction aaps as [|aap aaps IH]; intros m0 b; cbn [foldl fmap list_fmap].
  - rewrite elem_of_nil. tauto.
  - rewrite IH, elem_of_cons. destruct (decide (InAlias aap = b)) as [<-|Hne].
    + rewrite lookup_insert_eq. split; [intros _; by right; left|intros _; by left].
    + rewrite lookup_insert_ne by done. split; [tauto|].
      intros [?|[?|?]]; [by left|congruence|by right].
Qed.

Lemma toMap_is_Some (aaps : list AliasAccPair) (b : string) :
  is_Some (toMap aaps !! b) ↔ b ∈ InAlias <$> aaps.
Proof.
  unfold toMap. rewrite toMap_fold_is_Some, lookup_empty.
  split; [intros [[? ?]|?]; done|by right].
Qed.

Lemma find_None_iff {A : Type} (P : A → bool) (l : list A) :
  List.find P l = None ↔ ∀ x, x ∈ l → P x = false.
Proof.
  split.
  - intros Hf x Hx%list_elem_of_In. by apply (find_none _ _ Hf).
  - intros Hall. destruct (List.find P l) as [x|] eqn:Hf; [|done].
    apply find_some in Hf as [Hx%list_elem_of_In HP]. rewrite Hall in HP; done.
Qed.

(** X6: on a table that satisfies the invariant, the validation of
    [Reduce] passes exactly when the input aliases of the pairs are
    the bindings of the table: every binding is the input of some
    pair and every input is a binding. *)
Theorem Reduce_validate_iff (ord : RangeOrder) (t : Table) (h : list (gmap string bool))
    (aaps : list AliasAccPair) :
  table_inv t h →
  (Reduce_validate ord t h (toMap aaps) = None
   ↔ ∀ b, b ∈ bs t ↔ b ∈ InAlias <$> aaps).
Proof.
  intros [Hnd Hs]. unfold Reduce_validate.
  assert (∀ b, b ∈ (range_of ord _ (toMap aaps)).*1 ↔ b ∈ InAlias <$> aaps) as Hrange.
  { intros b. rewrite (range_of_perm ord), <- toMap_is_Some, list_elem_of_fmap. split.
    - intros ([k m] & -> & Hin%elem_of_map_to_list). by eexists.
    - intros [m Hm]. exists (b, m). split; [done|]. by apply elem_of_map_to_list. }
  assert (∀ b, map_at h (mbs t) !! b = None ↔ b ∉ bs t) as Hmbs.
  { intros b. rewrite (Hs b). case_bool_decide; split; done. }
  split.
  - case_bool_decide as Hlen; [done|].
    destruct (List.find _ (bs t)) as [?|] eqn:Hf1; [done|].
    destruct (List.find _ (range_of ord _ (toMap aaps)).*1) as [?|] eqn:Hf2; [done|].
    intros _ b. split.
    + intros Hb. apply (proj1 (find_None_iff _ _) Hf1) in Hb.
      apply bool_decide_eq_false in Hb. apply toMap_is_Some.
      by apply not_eq_None_Some.
    + intros Hb%Hrange. apply (proj1 (find_None_iff _ _) Hf2) in Hb.
      apply bool_decide_eq_false in Hb. rewrite Hmbs in Hb.
      by destruct (decide (b ∈ bs t)).
  - intros Hsame.
    assert (size (toMap aaps) = List.length (bs t)) as Hsize.
    { rewrite <- size_dom.
      replace (dom (toMap aaps)) with (list_to_set (bs t) : gset string).
      - by apply size_list_to_set.
      - apply set_eq. intros b.
        by rewrite elem_of_list_to_set, elem_of_dom, toMap_is_Some. }
    rewrite bool_decide_false by lia.
    rewrite (proj2 (find_None_iff _ (bs t))).
    2:{ intros b Hb. apply bool_decide_eq_false. apply Hsame, toMap_is_Some in Hb.
        by apply not_eq_None_Some. }
    rewrite (proj2 (find_None_iff _ _)).
    2:{ intros b Hb%Hrange%Hsame. apply bool_decide_eq_false. rewrite Hmbs. tauto. }
    rewrite bool_decide_false; [done|].
    rewrite (Permutation_length (range_of_perm ord _ _)), length_map_to_list. lia.
Qed.

End Validation.

Lemma Reduce_validate_iff_witness :
  Reduce_validate canonical groups_table groups_maps (toMap groups_pairs) = None.
Proof.
  apply Reduce_validate_iff.
  - split; [|apply (in_sync_fold ["g"; "val"])].
    apply NoDup_cons. split; [|apply NoDup_singleton].
    rewrite list_elem_of_singleton. discriminate.
  - intros b. by replace (bs groups_table) with (InAlias <$> groups_pairs) by reflexivity.
Defined.

(** ** The accumulators *)

Lemma wrap64_is_int64 (z : Z) : is_int64 (wrap64 z).
Proof.
  unfold is_int64, wrap64.
  pose proof (Z.mod_pos_bound (z + 2 ^ 63) (2 ^ 64) ltac:(lia)). lia.
Qed.

Lemma wrap64_id (z : Z) : is_int64 z → wrap64 z = z.
Proof. unfold is_int64, wrap64. intros Hz. rewrite Z.mod_small; lia. Qed.

Lemma wrap64_add_l (a b : Z) : wrap64 (wrap64 a + b) = wrap64 (a + b).
Proof.
  unfold wrap64.
  replace ((a + 2 ^ 63) mod 2 ^ 64 - 2 ^ 63 + b + 2 ^ 63)%Z
    with ((a + 2 ^ 63) mod 2 ^ 64 + b)%Z by lia.
  rewrite Zplus_mod_idemp_l. f_equal. f_equal. lia.
Qed.

Section Accumulators.
Context `{E : External}.

Lemma feed_sumInt64 (init : Z) :
  ∀ (ls : list Literal) (st : Z) (k : nat) (l : Literal),
    is_int64 st → ls !! k = Some l →
    feed (sumInt64 init st) (V_Literal <$> ls) !! k =
      Some (Ret (A_int64 (wrap64 (st + foldr Z.add 0%Z (int64_part <$> take (S k) ls))),
                 int64_error l)).
Proof.
  induction ls as [|l0 ls IH]; intros st k l Hst Hk; [done|].
  cbn [fmap list_fmap feed Accumulate take foldr].
  destruct (literal_Int64 l0) as [z|err] eqn:Hl0.
  - assert (int64_part l0 = z) as -> by (unfold int64_part; by rewrite Hl0).
    destruct k as [|k]; cbn in Hk.
    + injection Hk as <-. unfold int64_error. rewrite Hl0, take_0. cbn.
      by rewrite Z.add_0_r.
    + cbn [lookup list_lookup]. rewrite (IH _ k l (wrap64_is_int64 _) Hk).
      by rewrite wrap64_add_l, Z.add_assoc.
  - assert (int64_part l0 = 0%Z) as -> by (unfold int64_part; by rewrite Hl0).
    destruct k as [|k]; cbn in Hk.
    + injection Hk as <-. unfold int64_error. rewrite Hl0, take_0. cbn.
      by rewrite !Z.add_0_r, wrap64_id.
    + rewrite Z.add_0_l. by apply IH.
Qed.

(** X7: after a [Reset], the integer sum fed literals one after the
    other returns, at each call, its initial value plus the [int64]
    values of the literals fed so far, wrapped to 64 bits; a literal
    without an [int64] value adds nothing and the call returns the
    error of the literal with the sum as it stood. *)
Theorem sumInt64_running (init st : Z) (ls : list Literal) (k : nat) (l : Literal) :
  is_int64 init → ls !! k = Some l →
  feed (Reset (sumInt64 init st)) (V_Literal <$> ls) !! k =
    Some (Ret (A_int64 (wrap64 (init + foldr Z.add 0%Z (int64_part <$> take (S k) ls))),
               int64_error l)).
Proof. intros Hinit Hk. cbn [Reset]. by apply feed_sumInt64. Qed.

Lemma feed_countAcc :
  ∀ (vs : list value) (st : Z) (k : nat),
    k < List.length vs →
    feed (countAcc st) vs !! k = Some (Ret (A_int64 (wrap64 (st + Z.of_nat (S k))), None)).
Proof.
  induction vs as [|v vs IH]; intros st k Hk; [cbn in Hk; lia|].
  cbn [feed Accumulate]. destruct k as [|k].
  - done.
  - cbn [lookup list_lookup]. cbn in Hk. rewrite IH by lia. rewrite wrap64_add_l.
    do 4 f_equal; try apply (f_equal wrap64); lia.
Qed.

(** X8: after a [Reset], the counter returns [k] at its [k]-th call,
    whatever the values it is fed (for [k] below 2^63). *)
Theorem countAcc_running (st : Z) (vs : list value) (k : nat) :
  k < List.length vs → (Z.of_nat (S k) < 2 ^ 63)%Z →
  feed (Reset (countAcc st)) vs !! k = Some (Ret (A_int64 (Z.of_nat (S k)), None)).
Proof.
  intros Hk Hsmall. cbn [Reset]. rewrite feed_countAcc by done.
  rewrite Z.add_0_l, wrap64_id; [done|]. unfold is_int64. lia.
Qed.

Lemma Accumulate_Reset (a a' : AccState) (v : value) (r : accval) (err : option error) :
  Accumulate a v = Ret (r, err, a') → Reset a' = Reset a.
Proof.
  destruct a as [init st|init st|st|st|fed answer]; cbn.
  - destruct v as [c|l|s]; try done. by destruct (literal_Int64 l); intros [= <- <- <-].
  - destruct v as [c|l|s]; try done. by destruct (literal_Float64 l); intros [= <- <- <-].
  - by intros [= <- <- <-].
  - by intros [= <- <- <-].
  - destruct (answer (fed ++ [v])). by intros [= <- <- <-].
Qed.

(** X9: [Reset] forgets what was accumulated: whatever values an
    accumulator was fed, resetting it gives the accumulator that
    resetting it at the start gave, so that it answers the next values
    as it would have then. *)
Theorem Reset_forgets (a a' : AccState) (vs ws : list value) :
  feed_state a vs = Ret a' →
  Reset a' = Reset a ∧ feed (Reset a') ws = feed (Reset a) ws.
Proof.
  revert a. induction vs as [|v vs IH]; intros a Hrun; cbn in Hrun.
  - by injection Hrun as <-.
  - destruct (Accumulate a v) as [[[r err] a1]| |] eqn:Hacc; cbn in Hrun; try done.
    apply IH in Hrun as [-> _]. by rewrite (Accumulate_Reset _ _ _ _ _ Hacc).
Qed.

End Accumulators.

Lemma sumInt64_running_witness :
  feed (Reset (sumInt64 (E := sample) 10 99)) (V_Literal <$> [3%Z; 4%Z]) !! 1
  = Some (Ret (A_int64 17, None)).
Proof.
  rewrite (sumInt64_running (E := sample) 10 99 [3%Z; 4%Z] 1 4%Z); [reflexivity| |reflexivity].
  unfold is_int64. lia.
Defined.

Lemma countAcc_running_witness :
  feed (Reset (countAcc (E := sample) 7)) [V_string "a"; V_string "a"; V_Cell None] !! 2
  = Some (Ret (A_int64 3, None)).
Proof.
  rewrite countAcc_running; [reflexivity|cbn; lia|cbn; lia].
Defined.

Lemma Reset_forgets_witness :
  Reset (countDistinctAcc (E := sample) {[ "x" := 2%Z ]}) = Reset (countDistinctAcc ∅).
Proof.
  apply (Reset_forgets (countDistinctAcc ∅) _ [V_string "x"; V_string "x"] []).
  reflexivity.
Defined.

(** ** Appending a table *)

Section Appending.
Context `{E : External}.

Lemma in_sync_size (names : list string) (m : gmap string bool) :
  NoDup names → in_sync names m → size m = List.length names.
Proof.
  intros Hnd Hs. rewrite <- size_dom, <- (size_list_to_set (C := gset string)) by done.
  f_equal. apply set_eq. intros b.
  rewrite elem_of_dom, elem_of_list_to_set, (Hs b). case_bool_decide; split; try done.
Qed.

Lemma equalBindings_in_sync (n1 n2 : list string) (m1 m2 : gmap string bool) :
  NoDup n1 → NoDup n2 → in_sync n1 m1 → in_sync n2 m2 →
  (equalBindings m1 m2 = true ↔ ∀ b, b ∈ n1 ↔ b ∈ n2).
Proof.
  intros Hnd1 Hnd2 H1 H2. unfold equalBindings.
  rewrite (in_sync_size _ _ Hnd1 H1), (in_sync_size _ _ Hnd2 H2).
  assert (forallb (λ kv : string * bool, has m2 kv.1) (map_to_list m1) = true
          ↔ ∀ b, b ∈ n1 → b ∈ n2) as Hall.
  { rewrite forallb_forall. split.
    - intros Hall b Hb. specialize (Hall (b, true)). cbn in Hall.
      rewrite (has_in_sync _ _ _ H2) in Hall.
      destruct (decide (b ∈ n2)) as [|Hn]; [done|].
      rewrite (bool_decide_false _ Hn) in Hall. discriminate Hall.
      apply list_elem_of_In, elem_of_map_to_list. rewrite (H1 b).
      by rewrite bool_decide_true.
    - intros Hsub [k v] Hin%list_elem_of_In%elem_of_map_to_list. cbn.
      rewrite (has_in_sync _ _ _ H2). rewrite bool_decide_true; [done|]. apply Hsub.
      rewrite (H1 k) in Hin. by case_bool_decide. }
  split.
  - case_bool_decide as Hlen; [done|]. intros Hforall.
    pose proof (proj1 Hall Hforall) as Hsub.
    assert ((list_to_set n1 : gset string) = list_to_set n2) as Heq.
    { apply set_subseteq_size_eq.
      - intros b. rewrite !elem_of_list_to_set. apply Hsub.
      - rewrite !size_list_to_set by done. lia. }
    intros b. by rewrite <- !(elem_of_list_to_set (C := gset string)), Heq.
  - intros Hsame. rewrite bool_decide_false.
    + apply (proj2 Hall). intros b. by rewrite Hsame.
    + intros Hne. apply Hne. apply Permutation_length. by apply NoDup_Permutation.
Qed.

(** X10: between two tables that satisfy the invariant, [AppendTable]
    of the nil table changes nothing; a receiver with bindings turns
    down, with an error and unchanged, a table whose bindings are not
    the same names, and takes the rows of a table with the same names
    (in any order) after its own, keeping its bindings; a receiver
    without bindings takes over the bindings of the other table, and
    its rows after its own. *)
Theorem AppendTable_spec (t2 t : Table) (h : list (gmap string bool)) :
  table_inv t h → table_inv t2 h →
  AppendTable None t h = (None, t)
  ∧ (bs t ≠ [] → ¬ (∀ b, b ∈ bs t ↔ b ∈ bs t2) →
     AppendTable (Some t2) t h = (Some ErrAppendTableBindings, t))
  ∧ (bs t ≠ [] → (∀ b, b ∈ bs t ↔ b ∈ bs t2) →
     AppendTable (Some t2) t h = (None, with_data t (data t ++ data t2)))
  ∧ (bs t = [] →
     AppendTable (Some t2) t h =
       (None, {| bs := bs t2; mbs := mbs t2; data := data t ++ data t2 |})).
Proof.
  intros [Hnd1 H1] [Hnd2 H2].
  pose proof (equalBindings_in_sync _ _ _ _ Hnd1 Hnd2 H1 H2) as Heq.
  unfold AppendTable, Bindings. split_and!; [done| | |].
  - intros Hne Hdiff. rewrite bool_decide_true by (destruct (bs t); [done|cbn; lia]).
    destruct (equalBindings _ _); [|done]. by destruct Hdiff; apply Heq.
  - intros Hne Hsame. rewrite (proj2 Heq Hsame), andb_false_r.
    by rewrite bool_decide_false by (by destruct (bs t)).
  - intros ->. by cbn.
Qed.

End Appending.

Lemma AppendTable_spec_witness :
  AppendTable (Some other_table) one_table pair_maps = (Some ErrAppendTableBindings, one_table)
  ∧ AppendTable (Some one_table) one_table pair_maps
    = (None, with_data one_table (data one_table ++ data one_table)).
Proof.
  destruct pair_tables_inv as [Ha Hb].
  destruct (AppendTable_spec other_table one_table pair_maps Ha Hb) as (_ & Herr & _ & _).
  destruct (AppendTable_spec one_table one_table pair_maps Ha Ha) as (_ & _ & Hok & _).
  split.
  - apply Herr; [discriminate|]. intros Hsame. specialize (Hsame "a").
    apply proj1 in Hsame. specialize (Hsame ltac:(by apply list_elem_of_singleton)).
    by apply list_elem_of_singleton in Hsame.
  - by apply Hok.
Defined.

(** ** Rows: adding, reading, deleting, filtering, limiting *)

Section Rows.
Context `{E : External}.

Lemma with_data_same (t : Table) : with_data t (data t) = t.
Proof. by destruct t. Qed.

(** X11: [AddRow] drops the empty row; any other row becomes the last
    row of the table: [Row] reads it back at the index that was the
    number of rows, the rows before it read as before, and deleting
    the row at that index gives the table back. *)
Theorem AddRow_Row (r : Row) (t : Table) :
  AddRow ∅ t = t
  ∧ (r ≠ ∅ →
     NumRows (AddRow r t) = S (NumRows t)
     ∧ Table_Row (Z.of_nat (NumRows t)) (AddRow r t) = Some r
     ∧ (∀ k, Table_Row k t ≠ None → Table_Row k (AddRow r t) = Table_Row k t)
     ∧ DeleteRow (Z.of_nat (NumRows t)) (AddRow r t) = (None, t)).
Proof.
  unfold AddRow, NumRows. split; [done|]. intros Hr.
  rewrite bool_decide_true.
  2:{ destruct (decide (size r = 0)) as [H0%map_size_empty_iff|]; [done|lia]. }
  unfold with_data. cbn [data]. split_and!.
  - rewrite length_app. cbn. lia.
  - unfold Table_Row. cbn [data]. rewrite length_app. cbn [List.length].
    rewrite !bool_decide_false by lia. cbn. rewrite Nat2Z.id. apply list_lookup_middle. done.
  - intros k. unfold Table_Row. cbn [data]. rewrite length_app. cbn [List.length].
    repeat case_bool_decide; cbn; try done; try lia.
    intros _. apply lookup_app_l. lia.
  - unfold DeleteRow. cbn [data]. rewrite length_app. cbn [List.length].
    rewrite !bool_decide_false by lia. cbn. rewrite Nat2Z.id.
    rewrite take_app_length, drop_ge by (rewrite length_app; cbn; lia).
    rewrite app_nil_r. by destruct t.
Qed.

(** X12: [DeleteRow] at an index outside the rows returns an error and
    leaves the table as it is; at an index inside it removes that row
    alone: the bindings stay, there is one row less, the rows before
    the index read as before and each row after it reads one index
    lower. *)
Theorem DeleteRow_spec (i : Z) (t : Table) :
  ((i < 0 ∨ Z.of_nat (NumRows t) ≤ i)%Z → DeleteRow i t = (Some (ErrDeleteRow i), t))
  ∧ ((0 ≤ i < Z.of_nat (NumRows t))%Z →
     ∃ t', DeleteRow i t = (None, t')
       ∧ bs t' = bs t ∧ mbs t' = mbs t
       ∧ S (NumRows t') = NumRows t
       ∧ (∀ k, (k < i)%Z → Table_Row k t' = Table_Row k t)
       ∧ (∀ k, (i ≤ k)%Z → Table_Row k t' = Table_Row (k + 1) t)).
Proof.
  unfold DeleteRow, NumRows. split.
  - intros [Hi|Hi]; [by rewrite bool_decide_true|].
    rewrite (bool_decide_true (_ ≤ _)%Z) by done. by rewrite orb_true_r.
  - intros Hi. rewrite !bool_decide_false by lia. cbn [orb].
    eexists. split; [reflexivity|]. unfold with_data. cbn [bs mbs data].
    assert (List.length (take (Z.to_nat i) (data t) ++ drop (Z.to_nat i + 1) (data t))
            = List.length (data t) - 1) as Hlen.
    { rewrite length_app, length_take, length_drop. lia. }
    split_and!; try done.
    + lia.
    + intros k Hk. unfold Table_Row. cbn [data]. rewrite Hlen.
      repeat case_bool_decide; cbn; try done; try lia.
      rewrite lookup_app_l by (rewrite length_take; lia).
      apply lookup_take_lt. lia.
    + intros k Hk. unfold Table_Row. cbn [data]. rewrite Hlen.
      repeat case_bool_decide; cbn; try done; try lia.
      rewrite lookup_app_r by (rewrite length_take; lia).
      rewrite length_take, lookup_drop. f_equal. lia.
Qed.

Lemma filter_filter {A : Type} (f : A → bool) (l : list A) :
  List.filter f (List.filter f l) = List.filter f l.
Proof.
  induction l as [|a l IH]; [done|]. cbn. destruct (f a) eqn:Ha; [|done].
  cbn. by rewrite Ha, IH.
Qed.

Lemma filter_sublist {A : Type} (f : A → bool) (l : list A) :
  List.filter f l `sublist_of` l.
Proof.
  induction l as [|a l IH]; [done|]. cbn.
  destruct (f a); [by apply sublist_skip|by apply sublist_cons].
Qed.

Lemma filter_split_length {A : Type} (f : A → bool) (l : list A) :
  List.length (List.filter (λ a, negb (f a)) l)
  + List.length (List.filter (λ a, negb (negb (f a))) l) = List.length l.
Proof.
  induction l as [|a l IH]; [done|]. cbn. destruct (f a); cbn; lia.
Qed.

(** X13: [Filter] keeps the rows on which the function answers
    [false], and only those, each as many times as it was there and
    in the order they had, and leaves the bindings alone.  The rows
    left are the rows before, less those on which the function answers
    [true]: the rows kept and the rows the opposite function keeps
    are as many as the rows there were; a table without rows stays
    without rows, and on a table that got one more row the filter
    leaves what it leaves on the table before, followed by the new row
    when the function answers [false] on it.  Filtering again by the
    same function changes nothing more. *)
Theorem Filter_spec (f : Row → bool) (t : Table) :
  bs (Filter f t) = bs t ∧ mbs (Filter f t) = mbs t
  ∧ (∀ r, r ∈ data (Filter f t) ↔ r ∈ data t ∧ f r = false)
  ∧ data (Filter f t) `sublist_of` data t
  ∧ NumRows (Filter f t) + NumRows (Filter (λ r, negb (f r)) t) = NumRows t
  ∧ data (Filter f t) = filter (λ r, f r = false) (data t)
  ∧ data (Filter f (Truncate t)) = []
  ∧ (∀ r, data (Filter f (with_data t (data t ++ [r])))
          = data (Filter f t) ++ (if f r then [] else [r]))
  ∧ Filter f (Filter f t) = Filter f t.
Proof.
  unfold Filter, Truncate, NumRows. unfold with_data. cbn [bs mbs data].
  split_and!; try done.
  - intros r. rewrite !list_elem_of_In, filter_In, negb_true_iff. done.
  - apply filter_sublist.
  - apply filter_split_length.
  - induction (data t) as [|r rows IH]; [done|]. cbn [List.filter].
    destruct (f r) eqn:Hr; cbn [negb].
    + rewrite filter_cons_False by (by rewrite Hr). done.
    + rewrite filter_cons_True by done. by rewrite IH.
  - intros r. rewrite List.filter_app. cbn. by destruct (f r).
  - unfold with_data. cbn. by rewrite filter_filter.
Qed.

Lemma with_data_twice (t : Table) (d1 d2 : list Row) :
  with_data (with_data t d1) d2 = with_data t d2.
Proof. done. Qed.

(** X14: two limits in a row are the limit by the smaller number: for
    [n] and [m] not negative, [Limit(n)] then [Limit(m)] leaves what
    [Limit(min n m)] leaves; and the number of rows left by [Limit(n)]
    is the smaller of [n] and the number of rows. *)
Theorem Limit_Limit (n m : Z) (t : Table) :
  (0 ≤ n)%Z → (0 ≤ m)%Z →
  (Limit n t ≫= Limit m) = Limit (Z.min n m) t
  ∧ ∃ t', Limit n t = Ret t' ∧ Z.of_nat (NumRows t') = Z.min n (Z.of_nat (NumRows t)).
Proof.
  intros Hn Hm. unfold Limit, NumRows. split.
  - destruct (decide (n < Z.of_nat (List.length (data t)))%Z) as [Hlt|Hge].
    + rewrite (bool_decide_true _ Hlt), (bool_decide_false (n < 0)%Z) by lia.
      cbn [mbind outcome_bind]. unfold with_data. cbn [data bs mbs]. rewrite length_take.
      rewrite (bool_decide_true (Z.min n m < _)%Z) by lia.
      rewrite (bool_decide_false (Z.min n m < 0)%Z) by lia.
      destruct (decide (m < n)%Z) as [Hmn|Hmn].
      * rewrite bool_decide_true by lia. rewrite (bool_decide_false (m < 0)%Z) by lia.
        rewrite take_take.
        by replace (Z.to_nat (Z.min n m)) with (Z.to_nat m `min` Z.to_nat n) by lia.
      * rewrite bool_decide_false by lia. by replace (Z.min n m) with n by lia.
    + rewrite (bool_decide_false _ Hge). cbn [mbind outcome_bind].
      destruct (decide (m < Z.of_nat (List.length (data t)))%Z) as [Hlt|Hge'].
      * replace (Z.min n m) with m by lia.
        rewrite !bool_decide_true by lia. by rewrite !(bool_decide_false (_ < 0)%Z) by lia.
      * rewrite (bool_decide_false (m < _)%Z) by lia.
        by rewrite (bool_decide_false (Z.min n m < _)%Z) by lia.
  - case_bool_decide.
    + rewrite bool_decide_false by lia. eexists. split; [done|].
      unfold with_data. cbn [data]. rewrite length_take. lia.
    + eexists. split; [done|]. lia.
Qed.

End Rows.

Lemma AddRow_Row_witness :
  Table_Row 3 (AddRow (row [("g", lit 9)]) groups_table) = Some (row [("g", lit 9)])
  ∧ DeleteRow 3 (AddRow (row [("g", lit 9)]) groups_table) = (None, groups_table).
Proof.
  destruct (AddRow_Row (row [("g", lit 9)]) groups_table) as [_ H].
  destruct H as (_ & Hrow & _ & Hdel).
  - intros Hr. apply (f_equal (λ r : gmap string (option (@Cell sample)), r !! "g")) in Hr.
    by vm_compute in Hr.
  - by split.
Defined.

Lemma DeleteRow_spec_witness :
  ∃ t', DeleteRow 1 groups_table = (None, t')
        ∧ NumRows t' = 2
        ∧ Table_Row 1 t' = Table_Row 2 groups_table.
Proof.
  destruct (DeleteRow_spec 1 groups_table) as [_ H].
  destruct H as (t' & Hrun & _ & _ & Hn & _ & Hafter).
  - replace (NumRows groups_table) with 3 by reflexivity. lia.
  - exists t'. split_and!; [done| |by apply Hafter].
    replace (NumRows groups_table) with 3 in Hn by reflexivity. lia.
Defined.

Lemma Limit_Limit_witness :
  (Limit 2 groups_table ≫= Limit 1) = Limit 1 groups_table.
Proof.
  destruct (Limit_Limit 2 1 groups_table) as [H _]; [lia|lia|]. exact H.
Defined.

(** ** Adding bindings, merging rows *)

Section Adding.
Context `{E : External}.

Lemma AddBindings_has (names : list string) :
  ∀ (t : Table) (h : list (gmap string bool)) t' h',
    AddBindings names t h = (t', h') → mbs t < List.length h →
    mbs t' = mbs t ∧ List.length h' = List.length h
    ∧ ∀ b, has (map_at h' (mbs t)) b = has (map_at h (mbs t)) b || bool_decide (b ∈ names).
Proof.
  induction names as [|x names IH]; intros t h t' h' Hrun Hl.
  - cbn in Hrun. injection Hrun as <- <-. split_and!; try done.
    intros b. by rewrite bool_decide_false, orb_false_r by apply not_elem_of_nil.
  - unfold AddBindings in Hrun. cbn [foldl] in Hrun.
    destruct (has (map_at h (mbs t)) x) eqn:Hx.
    + apply IH in Hrun as (? & ? & Hhas); [|done]. split_and!; try done.
      intros b. rewrite Hhas. destruct (decide (b = x)) as [->|Hne].
      * by rewrite Hx.
      * f_equal. apply bool_decide_ext. rewrite elem_of_cons. tauto.
    + apply IH in Hrun as (Hm & Hlen & Hhas); [|cbn; by rewrite length_insert].
      cbn [mbs] in Hm, Hhas. rewrite length_insert in Hlen. split_and!; try done.
      intros b. rewrite Hhas, map_at_insert by done. unfold has at 1.
      destruct (decide (b = x)) as [->|Hne].
      * rewrite lookup_insert_eq. cbn. rewrite (bool_decide_true (x ∈ x :: names)) by left.
        by rewrite orb_true_r.
      * rewrite lookup_insert_ne by done. fold (has (map_at h (mbs t)) b). f_equal.
        apply bool_decide_ext. rewrite elem_of_cons. tauto.
Qed.

Lemma AddBindings_bound (names : list string) (t : Table) (h : list (gmap string bool)) :
  (∀ b, b ∈ names → has (map_at h (mbs t)) b = true) → AddBindings names t h = (t, h).
Proof.
  induction names as [|x names IH]; intros Hall; [done|].
  unfold AddBindings. cbn [foldl]. rewrite Hall by left.
  apply IH. intros b Hb. apply Hall. by right.
Qed.

(** X15: after [AddBindings], on a table whose map is in the store,
    [HasBinding] answers [true] for the names it answered [true] for
    before and for the names added, and for no other; and adding the
    same names again changes neither the table nor the store. *)
Theorem AddBindings_HasBinding (names : list string) (t t' : Table)
    (h h' : list (gmap string bool)) :
  AddBindings names t h = (t', h') → mbs t < List.length h →
  (∀ b, HasBinding b t' h' = HasBinding b t h || bool_decide (b ∈ names))
  ∧ AddBindings names t' h' = (t', h').
Proof.
  intros Hrun Hl. unfold HasBinding.
  destruct (AddBindings_has names t h t' h' Hrun Hl) as (Hm & Hlen & Hhas).
  rewrite Hm. split; [done|]. apply AddBindings_bound. intros b Hb.
  rewrite Hm, Hhas. rewrite (bool_decide_true _ Hb). by rewrite orb_true_r.
Qed.

(** X16: [MergeRows] of no row is the empty row, of one row a copy of
    it; in the merge of rows a key holds the cell of the last row that
    has the key. *)
Theorem MergeRows_last_wins (ms : list Row) (r : Row) (b : string) :
  MergeRows [] = ∅ ∧ MergeRows [r] = r
  ∧ MergeRows (ms ++ [r]) !! b =
      match r !! b with
      | Some c => Some c
      | None => MergeRows ms !! b
      end.
Proof.
  unfold MergeRows. split_and!; [done|cbn; by rewrite (right_id_L ∅ (∪))|].
  rewrite foldl_app. cbn [foldl]. rewrite lookup_union.
  destruct (r !! b), (foldl _ ∅ ms !! b); done.
Qed.

End Adding.

Lemma AddBindings_HasBinding_witness :
  ∃ t' h', AddBindings ["z"; "a"] empty_table empty_maps = (t', h')
           ∧ HasBinding "z" t' h' = true
           ∧ AddBindings ["z"; "a"] t' h' = (t', h').
Proof.
  destruct (AddBindings ["z"; "a"] empty_table empty_maps) as [t' h'] eqn:Hrun.
  exists t', h'. split; [done|].
  destruct (AddBindings_HasBinding _ _ _ _ _ Hrun) as [Hhas Hagain]; [cbn; lia|].
  split; [|done]. rewrite Hhas. reflexivity.
Defined.

(** ** The range of a group *)

Section GroupRange.
Context `{E : External}.



End GroupRange.


(** ** The text form *)

Lemma string_app_assoc (a b c : string) : ((a ++ b) ++ c = a ++ (b ++ c))%string.
Proof.
  induction a as [|x a IH]; [done|].
  change (String x ((a ++ b) ++ c) = String x (a ++ (b ++ c)))%string. by f_equal.
Qed.

Lemma string_app_nil_r (a : string) : (a ++ "")%string = a.
Proof.
  induction a as [|x a IH]; [done|].
  change (String x (a ++ "") = String x a)%string. by f_equal.
Qed.

Lemma concat_empty_cons (x : string) (xs : list string) :
  String.concat "" (x :: xs) = (x ++ String.concat "" xs)%string.
Proof. destruct xs; cbn; [by rewrite string_app_nil_r|done]. Qed.

Lemma concat_cons_cons (sep x y : string) (l : list string) :
  String.concat sep (x :: y :: l) = (x ++ sep ++ String.concat sep (y :: l))%string.
Proof. done. Qed.

Section TextForm.
Context `{E : External}.

Lemma ToTextLine_loop_spec (r : Row) (sep : string) :
  ∀ (names : list string) (res : string),
    (∀ b, b ∈ names → r !! b ≠ Some None) →
    ToTextLine_loop r sep names (Z.of_nat (List.length names)) res
    = Ret (res ++ String.concat sep (cell_text r <$> names))%string.
Proof.
  induction names as [|b names IH]; intros res Hnil.
  - cbn. by rewrite string_app_nil_r.
  - cbn [ToTextLine_loop].
    replace (Z.of_nat (List.length (b :: names)) - 1)%Z with (Z.of_nat (List.length names))
      by (cbn [List.length]; lia).
    assert ((match r !! b with
             | Some c => CellPtr_String c
             | None => Ret "<NULL>"
             end) = Ret (cell_text r b)) as ->.
    { unfold cell_text. destruct (r !! b) as [[c|]|] eqn:Hb; try done.
      by destruct (Hnil b ltac:(left)). }
    cbn [mbind outcome_bind]. rewrite IH by (intros b' Hb'; apply Hnil; by right).
    destruct names as [|b' names].
    + change (0 <? Z.of_nat (List.length []))%Z with false.
      cbn [fmap list_fmap String.concat]. by rewrite string_app_nil_r.
    + assert ((0 <? Z.of_nat (List.length (b' :: names)))%Z = true) as ->
        by (apply Z.ltb_lt; cbn [List.length]; lia).
      cbn [fmap list_fmap]. rewrite (concat_cons_cons sep (cell_text r b)).
      by rewrite !string_app_assoc.
Qed.

Lemma ToTextLine_loop_nil (r : Row) (sep : string) :
  ∀ (names : list string) (cnt : Z) (res : string),
    (∃ b, b ∈ names ∧ r !! b = Some None) →
    ToTextLine_loop r sep names cnt res = Panic.
Proof.
  induction names as [|b names IH]; intros cnt res (x & Hx & Hnil).
  - by apply elem_of_nil in Hx.
  - cbn [ToTextLine_loop]. destruct (r !! b) as [[c|]|] eqn:Hb; cbn; try done.
    + apply IH. exists x. split; [|done].
      apply elem_of_cons in Hx as [->|Hx]; [congruence|done].
    + apply IH. exists x. split; [|done].
      apply elem_of_cons in Hx as [->|Hx]; [congruence|done].
Qed.

(** X18: [ToTextLine] appends to the buffer one text for each binding
    asked for, in their order: the rendering of the cell the row holds
    for it, or [<NULL>] when the row has no such key; the separator
    stands between two texts and not after the last, and the empty
    separator stands for a tab.  When the row holds a nil cell for one
    of the bindings the call panics. *)
Theorem ToTextLine_spec (r : Row) (res : string) (names : list string) (sep : string) :
  ((∀ b, b ∈ names → r !! b ≠ Some None) →
     ToTextLine r res names sep
     = Ret (res ++ String.concat (if String.eqb sep "" then tab else sep)
                     (cell_text r <$> names))%string)
  ∧ ((∃ b, b ∈ names ∧ r !! b = Some None) → ToTextLine r res names sep = Panic).
Proof.
  unfold ToTextLine. split.
  - apply ToTextLine_loop_spec.
  - apply ToTextLine_loop_nil.
Qed.

Lemma ToText_rows_spec (sep : string) (names : list string) :
  ∀ (rows : list Row) (res : string),
    (∀ r b, r ∈ rows → b ∈ names → r !! b ≠ Some None) →
    ToText_rows sep names rows res
    = Ret (res ++ String.concat ""
             ((λ r, String.concat (if String.eqb sep "" then tab else sep)
                      (cell_text r <$> names) ++ newline) <$> rows))%string.
Proof.
  induction rows as [|r rows IH]; intros res Hnil.
  - cbn. by rewrite string_app_nil_r.
  - cbn [ToText_rows]. unfold ToTextLine.
    rewrite ToTextLine_loop_spec by (intros b Hb; apply Hnil; [by left|done]).
    cbn [mbind outcome_bind]. rewrite IH by (intros r' b Hr' Hb; apply Hnil; [by right|done]).
    cbn [fmap list_fmap]. rewrite concat_empty_cons. cbn [String.append].
    by rewrite !string_app_assoc.
Qed.

(** X19: on a table whose rows hold no nil cell for its bindings,
    [ToText] gives a first line with the bindings, joined by the
    separator as it was passed (by nothing when it is empty), then one
    line for each row, in the order of the rows, as [ToTextLine] writes
    it (cells joined by the separator, or by a tab when it is empty);
    every line ends with a line feed. *)
Theorem ToText_spec (sep : string) (t : Table) :
  (∀ r b, r ∈ data t → b ∈ bs t → r !! b ≠ Some None) →
  ToText sep t
  = Ret ((String.concat sep (bs t) ++ newline)
         ++ String.concat ""
              ((λ r, String.concat (if String.eqb sep "" then tab else sep)
                       (cell_text r <$> bs t) ++ newline) <$> data t))%string.
Proof. intros Hnil. unfold ToText. by apply ToText_rows_spec. Qed.

End TextForm.

Lemma ToTextLine_spec_witness :
  ToTextLine (row [("g", lit 1); ("val", lit 3)]) "" ["val"; "h"; "g"] "," = Ret "3,<NULL>,1".
Proof.
  destruct (ToTextLine_spec (row [("g", lit 1); ("val", lit 3)]) "" ["val"; "h"; "g"] ",")
    as [H _].
  rewrite H; [reflexivity|].
  intros b _. apply row_no_nil. repeat constructor; by eexists.
Defined.

Lemma ToText_spec_witness :
  ToText "" one_table
  = Ret ("a" ++ newline ++ "1" ++ newline ++ "2" ++ newline)%string.
Proof.
  rewrite ToText_spec; [reflexivity|].
  intros r b Hr _. apply elem_of_cons in Hr as [->|Hr].
  - apply row_no_nil. repeat constructor; by eexists.
  - apply list_elem_of_singleton in Hr as ->.
    apply row_no_nil. repeat constructor; by eexists.
Defined.

(** ** What a reduction returns *)

Section Reduced.
Context `{E : External}.

Lemma fullGroupRangeReduce_row_not_empty (ord : RangeOrder) (rows : list Row) (i j : nat)
    (acc : gmap string (gmap string AliasAccPair)) (σ σ' : list AccState) (nr : Row) :
  fullGroupRangeReduce ord rows i j acc σ = Ret (inl nr, σ') → nr ≠ ∅.
Proof.
  unfold fullGroupRangeReduce. repeat case_bool_decide; try done.
  destruct (reset_all _ σ) as [σ1| |]; cbn [mbind outcome_bind]; try done.
  destruct (accumulate_range _ _ _ _) as [[[[err|] vaccs] σ2]| |];
    cbn [mbind outcome_bind]; try done.
  destruct (take (j - i) (drop i rows)) as [|r0 rng]; [done|].
  destruct (new_row _ _ _) as [newRow|err]; [|done].
  case_bool_decide as Hsize; [done|]. intros [= <- <-] ->.
  by rewrite map_size_empty in Hsize.
Qed.

Lemma reduce_loop_shape (ord : RangeOrder) (cfg : list SortEntry)
    (maaps : gmap string (gmap string AliasAccPair)) (rows : list Row) :
  ∀ (todo : list Row) (idx : nat) (last : string) (lastIdx : nat) (newData : list Row)
    (σ : list AccState) li nd σ',
    reduce_loop ord cfg maaps rows todo idx last lastIdx newData σ = Ret (inr (li, nd, σ')) →
    (List.length nd ≤ List.length newData + List.length todo)%nat
    ∧ (last = "" → todo ≠ [] → (S (List.length nd) ≤ List.length newData + List.length todo)%nat)
    ∧ (Forall (λ r : Row, r ≠ ∅) newData → Forall (λ r : Row, r ≠ ∅) nd).
Proof.
  induction todo as [|r todo IH]; intros idx last lastIdx newData σ li nd σ' Hrun.
  - cbn in Hrun. injection Hrun as <- <- <-. split_and!; [lia|done|done].
  - cbn [reduce_loop] in Hrun.
    destruct (id_of cfg r "") as [current| |]; cbn [mbind outcome_bind] in Hrun; try done.
    destruct (String.eqb last "") eqn:Hlast.
    + apply IH in Hrun as (Hlen & _ & Hne). cbn [List.length]. split_and!; [lia|lia|done].
    + apply String.eqb_neq in Hlast. destruct (String.eqb last current).
      * apply IH in Hrun as (Hlen & _ & Hne). cbn [List.length]. split_and!; [lia|done|done].
      * destruct (fullGroupRangeReduce ord rows lastIdx idx maaps σ) as [[[nr|err] σ1]| |]
          eqn:Hgroup; cbn [mbind outcome_bind] in Hrun; try done.
        apply IH in Hrun as (Hlen & _ & Hne). rewrite length_app in Hlen.
        cbn [List.length] in *. split_and!; [lia|done|].
        intros Hall. apply Hne. apply Forall_app. split; [done|].
        constructor; [|done]. by apply fullGroupRangeReduce_row_not_empty in Hgroup.
Qed.

Lemma reduce_bindings_names (aaps : list AliasAccPair) :
  ∀ (names : list string) (m : gmap string bool),
    in_sync names m →
    let '(names', m') :=
      foldl (λ '(names, m) aap,
               (if has m (OutAlias aap) then names else names ++ [OutAlias aap],
                <[OutAlias aap := true]> m))
            (names, m) aaps in
    (∀ b, b ∈ names' ↔ b ∈ names ∨ b ∈ OutAlias <$> aaps)
    ∧ (NoDup (OutAlias <$> aaps) → (∀ b, b ∈ OutAlias <$> aaps → b ∉ names) →
       names' = names ++ (OutAlias <$> aaps)).
Proof.
  induction aaps as [|aap aaps IH]; intros names m Hs; cbn [foldl fmap list_fmap].
  - split; [|by rewrite app_nil_r]. intros b. rewrite elem_of_nil. tauto.
  - rewrite (has_in_sync _ _ _ Hs). case_bool_decide as Hin.
    + assert (in_sync names (<[OutAlias aap := true]> m)) as Hs'.
      { intros b. destruct (decide (OutAlias aap = b)) as [<-|Hne].
        - rewrite lookup_insert_eq. by rewrite bool_decide_true.
        - rewrite lookup_insert_ne by done. apply Hs. }
      specialize (IH names _ Hs'). destruct (foldl _ _ aaps) as [names' m'].
      destruct IH as [Hmem Heq]. split.
      * intros b. rewrite Hmem, elem_of_cons.
        destruct (decide (b = OutAlias aap)) as [->|]; tauto.
      * intros _ Hfresh. destruct (Hfresh (OutAlias aap)); [by left|done].
    + specialize (IH _ _ (in_sync_snoc _ _ (OutAlias aap) Hs)).
      destruct (foldl _ _ aaps) as [names' m']. destruct IH as [Hmem Heq]. split.
      * intros b. rewrite Hmem, elem_of_app, list_elem_of_singleton, elem_of_cons. tauto.
      * intros [Hnotin Hnd]%NoDup_cons Hfresh. rewrite Heq; [by rewrite <- app_assoc|done|].
        intros b Hb. rewrite elem_of_app, list_elem_of_singleton.
        intros [Hbn| ->]; [|done]. apply (Hfresh b); [by right|done].
Qed.

(** X20: a [Reduce] that returns no error changes nothing on a table
    without rows (the bindings stay what they were).  On a table of
    one to six rows (the rows up to which [sort.Sort] is the insertion
    sort of [sort_Sort]) it leaves at least one row and at most as many rows as there
    were, none of them empty; the bindings become the output aliases
    of the pairs, each once (the list of the output aliases itself,
    in the order of the pairs, when it has no repeats); and the table
    gets a fresh map, in step with the new bindings, the maps already
    in the store being left as they were. *)
Theorem Reduce_success_shape (ord : RangeOrder) (cfg : SortConfig)
    (aaps : list AliasAccPair) (t t' : Table) (h h' : list (gmap string bool))
    (σ σ' : list AccState) :
  Reduce ord cfg aaps t h σ = Ret (None, t', h', σ') →
  (NumRows t = 0 → t' = t ∧ h' = h ∧ σ' = σ)
  ∧ ((1 ≤ NumRows t ≤ 6)%nat →
     (1 ≤ NumRows t' ≤ NumRows t)%nat
     ∧ (∀ r, r ∈ data t' → r ≠ ∅)
     ∧ NoDup (Bindings t')
     ∧ (∀ b, b ∈ Bindings t' ↔ b ∈ OutAlias <$> aaps)
     ∧ (NoDup (OutAlias <$> aaps) → Bindings t' = OutAlias <$> aaps)
     ∧ mbs t' = List.length h
     ∧ in_sync (Bindings t') (map_at h' (mbs t'))
     ∧ (∀ l, l < List.length h → h' !! l = h !! l)).
Proof.
  unfold Reduce. intros Hrun.
  destruct (Reduce_validate ord t h (toMap aaps)); [done|].
  case_bool_decide as Hrows.
  { injection Hrun as <- <- <-. split; [done|]. intros [Hone _]. lia. }
  split; [done|]. intros _.
  destruct (Sort cfg t) as [ts| |] eqn:Hsort; cbn [mbind outcome_bind] in Hrun; try done.
  apply Sort_perm in Hsort as (_ & _ & Hperm). apply Permutation_length in Hperm.
  destruct (reduce_loop _ _ _ _ _ _ _ _ _ _) as [[[e σ1]|[[lastIdx newData] σ1]]| |]
    eqn:Hloop; cbn [mbind outcome_bind] in Hrun; try done.
  apply reduce_loop_shape in Hloop as (_ & Hlen & Hne).
  destruct (fullGroupRangeReduce _ _ _ _ _ _) as [[[nr|e] σ2]| |] eqn:Hgroup;
    cbn [mbind outcome_bind] in Hrun; try done.
  apply fullGroupRangeReduce_row_not_empty in Hgroup.
  pose proof (reduce_bindings_step aaps [] ∅ (NoDup_nil_2 (A := string))) as Hstep.
  pose proof (reduce_bindings_names aaps [] ∅) as Hnames.
  unfold reduce_bindings in Hrun. destruct (foldl _ _ aaps) as [names m].
  assert (in_sync [] (∅ : gmap string bool)) as Hempty.
  { intros b. by rewrite lookup_empty, bool_decide_false by apply not_elem_of_nil. }
  destruct (Hstep Hempty) as [Hnd Hs]. destruct (Hnames Hempty) as [Hmem Heq].
  injection Hrun as <- <- <-. unfold NumRows, Bindings in *. cbn [bs mbs data].
  specialize (Hlen eq_refl).
  split_and!.
  - rewrite length_app. cbn. lia.
  - rewrite length_app. cbn [List.length].
    destruct (data ts) as [|r0 rest] eqn:Hts; [cbn in Hperm; lia|].
    specialize (Hlen ltac:(done)). cbn [List.length] in *. lia.
  - intros r [Hr|Hr%list_elem_of_singleton]%elem_of_app; [|by subst].
    by apply (proj1 (Forall_forall _ _) (Hne (Forall_nil_2 _))).
  - done.
  - intros b. rewrite Hmem, elem_of_nil. tauto.
  - intros Hnd'. apply Heq; [done|]. intros b _. apply not_elem_of_nil.
  - done.
  - by rewrite map_at_app_new.
  - intros l Hl. by rewrite lookup_app_l.
Qed.

End Reduced.

Lemma Reduce_success_shape_witness :
  ∃ t' h' σ',
    Reduce canonical by_g groups_pairs groups_table groups_maps
      [NewCountAccumulator (E := sample)] = Ret (None, t', h', σ')
    ∧ Bindings t' = ["g"; "total"]
    ∧ (1 ≤ NumRows t' ≤ 3)%nat.
Proof.
  eassert (Reduce canonical by_g groups_pairs groups_table groups_maps
             [NewCountAccumulator (E := sample)] = Ret (None, _, _, _)) as Hrun
    by reflexivity.
  destruct (Reduce_success_shape _ _ _ _ _ _ _ _ _ Hrun) as [_ H].
  eexists _, _, _. split; [exact Hrun|].
  destruct H as (Hn & _ & _ & _ & Hbs & _); [vm_compute; lia|].
  split; [|exact Hn]. apply Hbs.
  apply NoDup_cons. split; [|apply NoDup_singleton].
  rewrite list_elem_of_singleton. discriminate.
Defined.

(** ** The projection of the bindings *)

Section Projection.
Context `{E : External}.

Lemma each_once_elem (names : list string) (b : string) :
  b ∈ each_once names ↔ b ∈ names.
Proof.
  induction names as [|x names IH]; [done|]. cbn [each_once].
  rewrite !elem_of_cons, list_elem_of_filter, IH.
  destruct (decide (b = x)) as [->|]; tauto.
Qed.

Lemma each_once_NoDup (names : list string) : NoDup (each_once names).
Proof.
  induction names as [|x names IH]; cbn [each_once]; [apply NoDup_nil_2|].
  apply NoDup_cons. split; [|by apply NoDup_filter].
  rewrite list_elem_of_filter. by intros [? _].
Qed.

Lemma filter_other_id (x : string) (l : list string) :
  x ∉ l → filter (λ y, y ≠ x) l = l.
Proof.
  induction l as [|y l IH]; [done|]. intros [Hne Hx]%not_elem_of_cons.
  rewrite filter_cons_True by done. by rewrite IH.
Qed.

Lemma filter_fresh_id (l : list string) : filter (λ x, x ∉ []) l = l.
Proof.
  induction l as [|y l IH]; [done|].
  rewrite filter_cons_True by apply not_elem_of_nil. by rewrite IH.
Qed.

Lemma each_once_id (names : list string) : NoDup names → each_once names = names.
Proof.
  induction names as [|x names IH]; [done|]. intros [Hx Hnd]%NoDup_cons.
  cbn [each_once]. rewrite (IH Hnd). by rewrite filter_other_id.
Qed.

(** [AddBindings] on a table in step with its map appends the names
    that are not bound yet, in the order in which they first occur. *)
Lemma AddBindings_order (names : list string) :
  ∀ (t : Table) (h : list (gmap string bool)) t' h',
    AddBindings names t h = (t', h') →
    mbs t < List.length h →
    in_sync (bs t) (map_at h (mbs t)) →
    bs t' = bs t ++ filter (λ x, x ∉ bs t) (each_once names).
Proof.
  induction names as [|b names IH]; intros t h t' h' Hrun Hl Hs.
  - cbn in Hrun. injection Hrun as <- <-. cbn. by rewrite app_nil_r.
  - unfold AddBindings in Hrun. cbn [foldl] in Hrun.
    rewrite (has_in_sync _ _ _ Hs) in Hrun. cbn [each_once].
    case_bool_decide as Hb.
    + apply IH in Hrun; [|done|done]. rewrite Hrun.
      rewrite filter_cons_False by (intros Hn; by apply Hn).
      rewrite list_filter_filter_l; [done|]. intros x Hx ->. by apply Hx.
    + apply IH in Hrun; cbn [bs mbs] in *.
      * rewrite Hrun, <- app_assoc. cbn [app]. rewrite filter_cons_True by done.
        do 2 f_equal. rewrite list_filter_filter. apply list_filter_iff.
        intros x. rewrite elem_of_app, list_elem_of_singleton. tauto.
      * by rewrite length_insert.
      * rewrite map_at_insert by done. by apply in_sync_snoc.
Qed.

Lemma find_first {A : Type} (f : A → bool) (l : list A) (x : A) :
  List.find f l = Some x →
  ∃ pre post, l = pre ++ x :: post ∧ f x = true ∧ ∀ y, y ∈ pre → f y = false.
Proof.
  induction l as [|a l IH]; [done|]. cbn. destruct (f a) eqn:Ha.
  - intros [= ->]. exists [], l. split_and!; [done|done|].
    by intros y ?%elem_of_nil.
  - intros (pre & post & -> & Hx & Hpre)%IH. exists (a :: pre), post.
    split_and!; [done|done|]. intros y [->|Hy]%elem_of_cons; [done|by apply Hpre].
Qed.

(** X21: on a table with at least one row and a map that is not
    empty, in step with its list or not, [ProjectBindings] turns down
    a list that holds a name [HasBinding] does not answer for: it
    returns the error of the first such name of the list and the
    table and the store stay as they were.  A list of names
    [HasBinding] answers for is accepted: the bindings become the
    names of the list, each once, in the order in which they first
    occur (the list itself when it has no repeats), the rows are kept
    as they are, also the cells of the names left out, and the table
    gets a map of its own, in step with the new list; the maps
    already in the store are left as they were. *)
Theorem ProjectBindings_spec (names : list string) (t : Table) (h : list (gmap string bool)) :
  data t ≠ [] → size (map_at h (mbs t)) ≠ 0 →
  ((∃ b, b ∈ names ∧ HasBinding b t h = false) →
     ∃ pre b post, names = pre ++ b :: post
       ∧ (∀ x, x ∈ pre → HasBinding x t h = true)
       ∧ HasBinding b t h = false
       ∧ ProjectBindings names t h = (Some (ErrProjectUnknownBinding b), (t, h)))
  ∧ ((∀ b, b ∈ names → HasBinding b t h = true) →
     ∃ t' h', ProjectBindings names t h = (None, (t', h'))
       ∧ data t' = data t
       ∧ Bindings t' = each_once names
       ∧ NoDup (Bindings t') ∧ (∀ b, b ∈ Bindings t' ↔ b ∈ names)
       ∧ (NoDup names → Bindings t' = names)
       ∧ mbs t' = List.length h
       ∧ table_inv t' h'
       ∧ (∀ l, l < List.length h → h' !! l = h !! l)).
Proof.
  intros Hd Hm. unfold ProjectBindings, HasBinding.
  rewrite (bool_decide_false (List.length (data t) = 0)) by (by destruct (data t)).
  rewrite (bool_decide_false (size _ = 0)) by done. cbn [orb]. split.
  - intros (b & Hb & Hhas).
    destruct (List.find _ names) as [x|] eqn:Hfind.
    + apply find_first in Hfind as (pre & post & -> & Hx%negb_true_iff & Hpre).
      exists pre, x, post. split_and!; [done| |done|done].
      intros y Hy. by apply negb_false_iff, Hpre.
    + apply list_elem_of_In in Hb. apply (find_none _ _ Hfind) in Hb.
      by rewrite Hhas in Hb.
  - intros Hall.
    destruct (List.find _ names) as [x|] eqn:Hfind.
    { apply find_some in Hfind as [Hx Hnot%negb_true_iff].
      rewrite Hall in Hnot; [done|by apply list_elem_of_In]. }
    destruct (AddBindings names _ _) as [t' h'] eqn:Hrun.
    assert (in_sync [] (map_at (h ++ [∅]) (List.length h))) as Hempty.
    { rewrite map_at_app_new. intros b.
      by rewrite lookup_empty, bool_decide_false by apply not_elem_of_nil. }
    assert (List.length h < List.length (h ++ [∅ : gmap string bool])) as Hlen0
      by (rewrite length_app; cbn; lia).
    pose proof (AddBindings_order _ _ _ _ _ Hrun Hlen0 Hempty) as Horder.
    apply AddBindings_inv in Hrun as (Hm' & Hd' & Hlen & Hother & Hinv & _);
      [|done|by split; [apply NoDup_nil_2|]].
    cbn [bs mbs data app] in *.
    assert (bs t' = each_once names) as Hbs.
    { rewrite Horder. apply filter_fresh_id. }
    exists t', h'. unfold Bindings. rewrite Hbs.
    split_and!; try done.
    + apply each_once_NoDup.
    + apply each_once_elem.
    + apply each_once_id.
    + intros l Hl. rewrite Hother by lia. by rewrite lookup_app_l.
Qed.

End Projection.

Lemma ProjectBindings_spec_witness :
  (∃ t' h', ProjectBindings ["val"; "g"; "val"] groups_table groups_maps = (None, (t', h'))
            ∧ Bindings t' = ["val"; "g"] ∧ data t' = data groups_table)
  ∧ (∃ b, HasBinding b groups_table groups_maps = false
          ∧ ProjectBindings ["g"; "x"; "y"] groups_table groups_maps
            = (Some (ErrProjectUnknownBinding b), (groups_table, groups_maps))).
Proof.
  destruct (ProjectBindings_spec ["val"; "g"; "val"] groups_table groups_maps)
    as [_ Hok]; [discriminate|vm_compute; lia|].
  destruct (ProjectBindings_spec ["g"; "x"; "y"] groups_table groups_maps)
    as [Herr _]; [discriminate|vm_compute; lia|].
  split.
  - destruct Hok as (t' & h' & Hrun & Hd & Hbs & _).
    + intros b Hb. repeat (apply elem_of_cons in Hb as [->|Hb]; [reflexivity|]).
      by apply elem_of_nil in Hb.
    + by exists t', h'.
  - destruct Herr as (pre & b & post & Hnames & Hpre & Hb & Hrun).
    + exists "x". split; [|reflexivity]. apply elem_of_cons. right. by left.
    + by exists b.
Defined.
